(** * The RISC-V word-optimised memcpy (arch/riscv/lib/string.c)

    A shallow embedding of [__memcpy_aligned] and [__memcpy] over a
    byte-addressed little-endian memory, with every load and store
    recorded in an access trace, and the properties of the copy routine
    proved over that embedding. *)

From Stdlib Require Import ZArith Lia List Bool.
From coqutil Require Import Byte.
Import ListNotations.
Local Open Scope Z_scope.

(** ** Platform constants *)

(** [sizeof(long)] is fixed by the RISC-V base ISA the kernel is built for. *)
Inductive xlen : Set := RV32 | RV64.

(** ** Memory, accesses and the execution monad *)

(** One memory access: the address of its first byte and its size in bytes. *)
Inductive access : Set :=
| Ld (addr size : Z)
| St (addr size : Z).

(** Addresses are integers.  A region the routine is called on lies
    inside the address space, so pointer arithmetic within it never wraps
    and is plain addition; only [count], a [size_t], is reduced modulo
    [2 ^ (8 * sizeof(long))]. *)
Definition memory : Type := Z -> byte.

Record state : Type := mkState { mem : memory; trace : list access }.

(** Computations thread the machine state; [None] is a loop that ran out
    of fuel. *)
Definition M (A : Type) : Type := state -> option (A * state).

Definition ret {A : Type} (a : A) : M A := fun st => Some (a, st).

Definition bind {A B : Type} (c : M A) (k : A -> M B) : M B :=
  fun st => match c st with
            | Some (a, st') => k a st'
            | None => None
            end.

Definition out_of_fuel {A : Type} : M A := fun _ => None.

Notation "x <- c ;; k" := (bind c (fun x => k))
  (at level 61, c at next level, right associativity).
Notation "' pat <- c ;; k" := (bind c (fun x => match x with pat => k end))
  (at level 61, pat pattern, c at next level, right associativity).
Notation "c ;;; k" := (bind c (fun _ => k))
  (at level 61, right associativity).

Definition upd (m : memory) (a : Z) (b : byte) : memory :=
  fun a' => if a' =? a then b else m a'.

Definition log (e : access) (st : state) : list access := trace st ++ [e].

(** [*p] for [const u8 *p]. *)
Definition load_u8 (p : Z) : M byte :=
  fun st => Some (mem st p, mkState (mem st) (log (Ld p 1) st)).

(** [*p = b] for [u8 *p]. *)
Definition store_u8 (p : Z) (b : byte) : M unit :=
  fun st => Some (tt, mkState (upd (mem st) p b) (log (St p 1) st)).

(** Little-endian combination of [n] bytes starting at [a]. *)
Fixpoint le_load (m : memory) (a : Z) (n : nat) : Z :=
  match n with
  | O => 0
  | S k => Z.lor (byte.unsigned (m a)) (Z.shiftl (le_load m (a + 1) k) 8)
  end.

(** Little-endian split of [w] into [n] bytes stored from [a] upwards. *)
Fixpoint le_store (m : memory) (a : Z) (n : nat) (w : Z) : memory :=
  match n with
  | O => m
  | S k => le_store (upd m a (byte.of_Z w)) (a + 1) k (Z.shiftr w 8)
  end.

(** Byte [i] (counted from the least significant one) of the word [w]. *)
Definition byte_at (w i : Z) : byte := byte.of_Z (Z.shiftr w (8 * i)).

Section Platform.

Variable XLEN : xlen.
Variable CONFIG_HAVE_EFFICIENT_UNALIGNED_ACCESS : bool.

Definition BYTES_LONG : Z := match XLEN with RV32 => 4 | RV64 => 8 end.
Definition WORD_MASK : Z := BYTES_LONG - 1.
Definition MIN_THRESHOLD : Z := BYTES_LONG * 2.

(** [unsigned long] and [size_t] arithmetic is modulo [2 ^ (8 * sizeof(long))]. *)
Definition wrap (z : Z) : Z := z mod 2 ^ (8 * BYTES_LONG).

(** Address of [p[i]] for [unsigned long *p]. *)
Definition idx (p i : Z) : Z := p + i * BYTES_LONG.

(** [*p] for [const unsigned long *p]. *)
Definition load_ulong (p : Z) : M Z :=
  fun st => Some (le_load (mem st) p (Z.to_nat BYTES_LONG),
                  mkState (mem st) (log (Ld p BYTES_LONG) st)).

(** [*p = w] for [unsigned long *p]. *)
Definition store_ulong (p : Z) (w : Z) : M unit :=
  fun st => Some (tt, mkState (le_store (mem st) p (Z.to_nat BYTES_LONG) w)
                              (log (St p BYTES_LONG) st)).

(** ** The source functions *)

(** [static void __memcpy_aligned(unsigned long *dest,
                                  const unsigned long *src, size_t count)] *)
Fixpoint __memcpy_aligned (fuel : nat) (dest src count : Z) : M unit :=
  if 0 <? count then
    match fuel with
    | O => out_of_fuel
    | S fuel' =>
        d0 <- load_ulong (idx src 0) ;;
        d1 <- load_ulong (idx src 1) ;;
        d2 <- load_ulong (idx src 2) ;;
        d3 <- load_ulong (idx src 3) ;;
        d4 <- load_ulong (idx src 4) ;;
        d5 <- load_ulong (idx src 5) ;;
        d6 <- load_ulong (idx src 6) ;;
        d7 <- load_ulong (idx src 7) ;;
        store_ulong (idx dest 0) d0 ;;;
        store_ulong (idx dest 1) d1 ;;;
        store_ulong (idx dest 2) d2 ;;;
        store_ulong (idx dest 3) d3 ;;;
        store_ulong (idx dest 4) d4 ;;;
        store_ulong (idx dest 5) d5 ;;;
        store_ulong (idx dest 6) d6 ;;;
        store_ulong (idx dest 7) d7 ;;;
        __memcpy_aligned fuel' (idx dest 8) (idx src 8)
                         (wrap (count - BYTES_LONG * 8))
    end
  else ret tt.

(** [for (; d.as_uptr & WORD_MASK; count--) *d.as_u8++ = *s.as_u8++;] *)
Fixpoint align_dest (fuel : nat) (d s count : Z) : M (Z * Z * Z) :=
  if Z.land d WORD_MASK =? 0 then ret (d, s, count)
  else
    match fuel with
    | O => out_of_fuel
    | S fuel' =>
        b <- load_u8 s ;;
        store_u8 d b ;;;
        align_dest fuel' (d + 1) (s + 1) (wrap (count - 1))
    end.

(** [last >> (distance * 8) | next << ((BYTES_LONG - distance) * 8)] *)
Definition merge (last next distance : Z) : Z :=
  Z.lor (Z.shiftr last (distance * 8))
        (wrap (Z.shiftl next ((BYTES_LONG - distance) * 8))).

(** The [for (; count >= BYTES_LONG; count -= BYTES_LONG)] loop of the
    shift-merge branch; [next] is carried from one iteration to the next. *)
Fixpoint shift_loop (fuel : nat) (distance d s count next : Z)
  : M (Z * Z * Z) :=
  if BYTES_LONG <=? count then
    match fuel with
    | O => out_of_fuel
    | S fuel' =>
        let last := next in
        next <- load_ulong (idx s 1) ;;
        store_ulong (idx d 0) (merge last next distance) ;;;
        shift_loop fuel' distance (idx d 1) (idx s 1)
                   (wrap (count - BYTES_LONG)) next
    end
  else ret (d, s, count).

(** The [if (distance)] branch. *)
Definition shift_merge (fuel : nat) (distance d s count : Z)
  : M (Z * Z * Z) :=
  let s := s - distance in
  next <- load_ulong (idx s 0) ;;
  '(d, s, count) <- shift_loop fuel distance d s count next ;;
  ret (d, s + distance, count).

(** The [else] branch. *)
Definition aligned_copy (fuel : nat) (d s count : Z) : M (Z * Z * Z) :=
  let aligned_count := Z.land count (wrap (Z.lnot (BYTES_LONG * 8 - 1))) in
  __memcpy_aligned fuel d s aligned_count ;;;
  ret (d + aligned_count, s + aligned_count,
       Z.land count (BYTES_LONG * 8 - 1)).

(** [copy_remainder: while (count--) *d.as_u8++ = *s.as_u8++;] *)
Fixpoint copy_remainder (fuel : nat) (d s count : Z) : M unit :=
  if count =? 0 then ret tt
  else
    match fuel with
    | O => out_of_fuel
    | S fuel' =>
        b <- load_u8 s ;;
        store_u8 d b ;;;
        copy_remainder fuel' (d + 1) (s + 1) (wrap (count - 1))
    end.

(** Everything between the threshold test and [copy_remainder]. *)
Definition bulk_copy (fuel : nat) (dest src count : Z) : M (Z * Z * Z) :=
  '(d, s, count, distance) <-
    (if negb CONFIG_HAVE_EFFICIENT_UNALIGNED_ACCESS then
       '(d, s, count) <- align_dest fuel dest src count ;;
       ret (d, s, count, Z.land s WORD_MASK)
     else ret (dest, src, count, 0)) ;;
  if negb (distance =? 0) then shift_merge fuel distance d s count
  else aligned_copy fuel d s count.

(** [void *__memcpy(void *dest, const void *src, size_t count)] *)
Definition __memcpy (fuel : nat) (dest src count : Z) : M Z :=
  '(d, s, count) <-
    (if count <? MIN_THRESHOLD then ret (dest, src, count)
     else bulk_copy fuel dest src count) ;;
  copy_remainder fuel d s count ;;;
  ret dest.

End Platform.

(** ** Functional descriptions of the phases

    Each loop of the source is related below to a pure function that
    gives the memory it leaves behind and to the list of accesses it
    performs. *)

(** The trivial byte copy: [for (i = 0; i < n; i++) d[i] = s[i];]. *)
Fixpoint reference_copy (m : memory) (d s : Z) (n : nat) : memory :=
  match n with
  | O => m
  | S k => reference_copy (upd m d (m s)) (d + 1) (s + 1) k
  end.

Fixpoint byte_events (d s : Z) (n : nat) : list access :=
  match n with
  | O => []
  | S k => Ld s 1 :: St d 1 :: byte_events (d + 1) (s + 1) k
  end.

Definition unroll : list Z := [0; 1; 2; 3; 4; 5; 6; 7].

Section Descriptions.

Variable XLEN : xlen.

Local Abbreviation W := (BYTES_LONG XLEN).
Local Abbreviation Wn := (Z.to_nat (BYTES_LONG XLEN)).

(** One iteration of [__memcpy_aligned]: eight loads, then eight stores. *)
Definition block_mem (m : memory) (dest src : Z) : memory :=
  fold_left
    (fun m' i => le_store m' (idx XLEN dest i) Wn
                          (le_load m (idx XLEN src i) Wn))
    unroll m.

Definition block_events (dest src : Z) : list access :=
  map (fun i => Ld (idx XLEN src i) W) unroll ++
  map (fun i => St (idx XLEN dest i) W) unroll.

Fixpoint aligned_mem (m : memory) (dest src : Z) (n : nat) : memory :=
  match n with
  | O => m
  | S k => aligned_mem (block_mem m dest src)
                       (idx XLEN dest 8) (idx XLEN src 8) k
  end.

Fixpoint aligned_events (dest src : Z) (n : nat) : list access :=
  match n with
  | O => []
  | S k => block_events dest src ++
           aligned_events (idx XLEN dest 8) (idx XLEN src 8) k
  end.

(** [n] iterations of the shift-merge loop. *)
Fixpoint shift_mem (m : memory) (distance d s next : Z) (n : nat) : memory :=
  match n with
  | O => m
  | S k =>
      let next' := le_load m (idx XLEN s 1) Wn in
      shift_mem (le_store m (idx XLEN d 0) Wn (merge XLEN next next' distance))
                distance (idx XLEN d 1) (idx XLEN s 1) next' k
  end.

Fixpoint shift_events (d s : Z) (n : nat) : list access :=
  match n with
  | O => []
  | S k => Ld (idx XLEN s 1) W :: St (idx XLEN d 0) W ::
           shift_events (idx XLEN d 1) (idx XLEN s 1) k
  end.

(** ** Properties of a copy *)

(** The [n] bytes at [d] in [m'] are the [n] bytes at [s] in [m]. *)
Definition copied (m m' : memory) (d s n : Z) : Prop :=
  forall i, 0 <= i < n -> m' (d + i) = m (s + i).

(** [m'] differs from [m] at most inside [[d, d + n)]. *)
Definition unchanged_outside (m m' : memory) (d n : Z) : Prop :=
  forall a, ~ (d <= a < d + n) -> m' a = m a.

Definition disjoint (d s n : Z) : Prop := d + n <= s \/ s + n <= d.

(** A store stays inside the destination region [[D, D + N)]. *)
Definition store_inside (D N : Z) (e : access) : Prop :=
  match e with
  | St a sz => D <= a /\ a + sz <= D + N
  | Ld _ _ => True
  end.

(** A load stays inside the source region [[S, S + N)]. *)
Definition load_inside (S N : Z) (e : access) : Prop :=
  match e with
  | Ld a sz => S <= a /\ a + sz <= S + N
  | St _ _ => True
  end.

(** A load stays inside the source region, or it is the load of one
    aligned word that holds at least one byte of the source region. *)
Definition load_within_words (S N : Z) (e : access) : Prop :=
  match e with
  | Ld a sz =>
      (S <= a /\ a + sz <= S + N) \/
      (sz = W /\ a mod W = 0 /\ a < S + N /\ S < a + W)
  | St _ _ => True
  end.

(** Number of bytes moved by the stores, and by the loads, of a trace. *)
Definition bytes_stored (evs : list access) : Z :=
  fold_right (fun e acc => match e with St _ sz => sz + acc | Ld _ _ => acc end)
             0 evs.

Definition bytes_loaded (evs : list access) : Z :=
  fold_right (fun e acc => match e with Ld _ sz => sz + acc | St _ _ => acc end)
             0 evs.

Definition byte_sized (e : access) : Prop :=
  match e with
  | Ld _ sz => sz = 1
  | St _ sz => sz = 1
  end.

(** Two memories agree on the source region [[S, S + N)] and on the first
    [k] bytes of the destination region at [D]. *)
Definition agree_upto (S N D k : Z) (m1 m2 : memory) : Prop :=
  forall a, S <= a < S + N \/ D <= a < D + k -> m1 a = m2 a.

(** The computation [c] returns [a] from every state, after applying the
    memory transformer [F] and performing the accesses [evs]. *)
Definition runs {A : Type} (c : M A) (a : A) (F : memory -> memory)
           (evs : list access) : Prop :=
  forall st, c st = Some (a, mkState (F (mem st)) (trace st ++ evs)).

(** What one phase, copying [n] bytes from [s] to [d] as part of the call
    [copy(D, S, N)], does: [F] is its effect on memory, [evs] its accesses;
    [strict] tells whether the phase keeps every load inside the source. *)
Definition phase (D S N : Z) (strict : bool) (F : memory -> memory)
           (evs : list access) (d s n : Z) : Prop :=
  Forall (store_inside D N) evs /\
  Forall (load_within_words S N) evs /\
  (strict = true -> Forall (load_inside S N) evs) /\
  (forall m, unchanged_outside m (F m) d n) /\
  (forall m, disjoint d s n -> copied m (F m) d s n) /\
  (forall m1 m2, agree_upto S N D (d - D) m1 m2 ->
                 agree_upto S N D (d - D + n) (F m1) (F m2)).

(** Whether the call [copy(dest, src, count)] stays off the shift-merge
    branch: a count below the threshold, efficient unaligned access, or
    source and destination with the same offset inside a word. *)
Definition word_exact (flag : bool) (dest src count : Z) : bool :=
  (count <? MIN_THRESHOLD XLEN) || flag || ((src - dest) mod W =? 0).

End Descriptions.

(** ** The plan of a call

    What a call does is fixed by the addresses and the count alone: a
    byte prefix, a bulk part made of unrolled blocks or of shift-merged
    words, and a byte tail.  [memcpy_plan] computes the three lengths;
    the routine is proved below to carry out exactly that plan. *)

Inductive bulk_plan : Set :=
| ByBlocks (n : nat)
| ByShift (distance : Z) (n : nat).

Record plan : Set := mkPlan { prefix : nat; bulk : bulk_plan; tail : nat }.

Section Plans.

Variable XLEN : xlen.

Local Abbreviation W := (BYTES_LONG XLEN).
Local Abbreviation Wn := (Z.to_nat (BYTES_LONG XLEN)).

Definition bulk_len (b : bulk_plan) : Z :=
  match b with
  | ByBlocks n => 8 * W * Z.of_nat n
  | ByShift _ n => W * Z.of_nat n
  end.

Definition bulk_mem (b : bulk_plan) (d s : Z) (m : memory) : memory :=
  match b with
  | ByBlocks n => aligned_mem XLEN m d s n
  | ByShift distance n =>
      shift_mem XLEN m distance d (s - distance)
                (le_load m (s - distance) Wn) n
  end.

Definition bulk_events (b : bulk_plan) (d s : Z) : list access :=
  match b with
  | ByBlocks n => aligned_events XLEN d s n
  | ByShift distance n =>
      Ld (s - distance) W :: shift_events XLEN d (s - distance) n
  end.

Definition plan_mem (pl : plan) (dest src : Z) (m : memory) : memory :=
  let p := Z.of_nat (prefix pl) in
  let k := bulk_len (bulk pl) in
  reference_copy
    (bulk_mem (bulk pl) (dest + p) (src + p)
              (reference_copy m dest src (prefix pl)))
    (dest + p + k) (src + p + k) (tail pl).

Definition plan_events (pl : plan) (dest src : Z) : list access :=
  let p := Z.of_nat (prefix pl) in
  let k := bulk_len (bulk pl) in
  byte_events dest src (prefix pl) ++
  bulk_events (bulk pl) (dest + p) (src + p) ++
  byte_events (dest + p + k) (src + p + k) (tail pl).

Definition memcpy_plan (flag : bool) (dest src count : Z) : plan :=
  if count <? MIN_THRESHOLD XLEN then mkPlan 0 (ByBlocks 0) (Z.to_nat count)
  else
    let p := if flag then 0 else (- dest) mod W in
    let distance := if flag then 0 else (src + p) mod W in
    let c := count - p in
    if distance =? 0 then
      mkPlan (Z.to_nat p) (ByBlocks (Z.to_nat (c / (8 * W))))
             (Z.to_nat (c mod (8 * W)))
    else
      mkPlan (Z.to_nat p) (ByShift distance (Z.to_nat (c / W)))
             (Z.to_nat (c mod W)).

(** An access is one byte or one word. *)
Definition byte_or_word (e : access) : Prop :=
  match e with
  | Ld _ sz => sz = 1 \/ sz = W
  | St _ sz => sz = 1 \/ sz = W
  end.

(** An access is one byte, or one word at a word-aligned address. *)
Definition naturally_aligned (e : access) : Prop :=
  match e with
  | Ld a sz => sz = 1 \/ (sz = W /\ a mod W = 0)
  | St a sz => sz = 1 \/ (sz = W /\ a mod W = 0)
  end.

End Plans.

(** The destination does not start strictly inside the source region:
    the regions are disjoint, or they overlap with [d <= s]. *)
Definition fwd_ok (d s n : Z) : Prop := d <= s \/ s + n <= d.

(** The stores of a trace, taken in order, are non-empty and each starts
    where the previous one ended; [stores_from a evs] is the address the
    last one ends at when the first one starts at [a]. *)
Fixpoint stores_from (a : Z) (evs : list access) : option Z :=
  match evs with
  | [] => Some a
  | Ld _ _ :: evs' => stores_from a evs'
  | St b sz :: evs' =>
      if (b =? a) && (0 <? sz) then stores_from (a + sz) evs' else None
  end.

(** The same for the loads of a trace. *)
Fixpoint loads_from (a : Z) (evs : list access) : option Z :=
  match evs with
  | [] => Some a
  | St _ _ :: evs' => loads_from a evs'
  | Ld b sz :: evs' =>
      if (b =? a) && (0 <? sz) then loads_from (a + sz) evs' else None
  end.

(** Number of bytes stored by byte-sized stores. *)
Definition bytes_stored_bytewise (evs : list access) : Z :=
  fold_right (fun e acc => match e with
                           | St _ sz => if sz =? 1 then 1 + acc else acc
                           | Ld _ _ => acc
                           end) 0 evs.

(** ** Concrete memories for the examples *)

Definition init (m : memory) : state := mkState m [].

(** A buffer of [n] bytes at [s] holding [0, 1, 2, ...], surrounded by [0xaa]. *)
Definition pattern (s n : Z) : memory :=
  fun a => if (s <=? a) && (a <? s + n) then byte.of_Z (a - s) else Byte.xaa.

Definition dump (m : memory) (a : Z) (n : nat) : list Z :=
  map (fun i => byte.unsigned (m (a + Z.of_nat i))) (seq 0 n).

(** * The T-HEAD PWM driver (drivers/pwm/pwm-thead.c)

    The driver talks to the device registers and to the kernel's clock,
    runtime-PM and PWM services.  Those are not part of the driver: each
    call to one of them is recorded as an event, and the value it
    returns is taken from an environment that may answer differently
    depending on everything that happened before. *)

(** Fixed-width C integers: [u32], [int], and the 64-bit [unsigned long]
    of the RV64 SoC the driver is for ([do_div] needs a 64-bit dividend). *)
Definition u32 (z : Z) : Z := z mod 2 ^ 32.
Definition u64 (z : Z) : Z := z mod 2 ^ 64.
Definition s32 (z : Z) : Z := (z + 2 ^ 31) mod 2 ^ 32 - 2 ^ 31.

Definition MAX_PWM_NUM : Z := 6.

Definition LIGHT_PWM_CHN_BASE (n : Z) : Z := u32 (n * 0x20).
Definition LIGHT_PWM_CTRL (n : Z) : Z := u32 (LIGHT_PWM_CHN_BASE n + 0x00).
Definition LIGHT_PWM_RPT (n : Z) : Z := u32 (LIGHT_PWM_CHN_BASE n + 0x04).
Definition LIGHT_PWM_PER (n : Z) : Z := u32 (LIGHT_PWM_CHN_BASE n + 0x08).
Definition LIGHT_PWM_FP (n : Z) : Z := u32 (LIGHT_PWM_CHN_BASE n + 0x0c).
Definition LIGHT_PWM_STATUS (n : Z) : Z := u32 (LIGHT_PWM_CHN_BASE n + 0x10).

(** [BIT(n)] is [1UL << n]. *)
Definition BIT (n : Z) : Z := u64 (Z.shiftl 1 n).

Definition PWM_START : Z := BIT 0.
Definition PWM_SOFT_RST : Z := BIT 1.
Definition PWM_CFG_UPDATE : Z := BIT 2.
Definition PWM_INT_EN : Z := BIT 3.
Definition PWM_ONE_SHOT_MODE : Z := BIT 4.
Definition PWM_CONTINUOUS_MODE : Z := BIT 5.
Definition PWM_EVT_RISING_TRIG_UNDER_ONE_SHOT : Z := BIT 6.
Definition PWM_EVT_FALLING_TRIG_UNDER_ONE_SHOT : Z := BIT 7.
Definition PWM_FPOUT : Z := BIT 8.
Definition PWM_INFACTOUT : Z := BIT 9.

Definition EINVAL : Z := 22.
Definition ENOMEM : Z := 12.
Definition NSEC_PER_SEC : Z := 1000000000.
Definition MAX_ERRNO : Z := 4095.

(** [IS_ERR] and [PTR_ERR] on a pointer given as a 64-bit value. *)
Definition IS_ERR (p : Z) : bool := u64 (- MAX_ERRNO) <=? p.
Definition PTR_ERR (p : Z) : Z := s32 p.

Inductive pwm_polarity : Set := PWM_POLARITY_NORMAL | PWM_POLARITY_INVERSED.

Definition polarity_eqb (a b : pwm_polarity) : bool :=
  match a, b with
  | PWM_POLARITY_NORMAL, PWM_POLARITY_NORMAL => true
  | PWM_POLARITY_INVERSED, PWM_POLARITY_INVERSED => true
  | _, _ => false
  end.

(** [struct pwm_state], the fields the driver reads. *)
Record pwm_state : Set := mkPwmState {
  period : Z;
  duty_cycle : Z;
  polarity : pwm_polarity;
  enabled : bool
}.

(** [struct pwm_device], the fields the driver reads. *)
Record pwm_device : Set := mkPwmDevice { hwpwm : Z; cur : pwm_state }.

(** One call to a service outside the driver, with what it returned. *)
Inductive call : Set :=
| Readl (off val : Z)
| Writel (val off : Z)
| ClkGetRate (rate : Z)
| ClkPrepareEnable (r : Z)
| ClkDisableUnprepare
| PmRuntimeGetSync (r : Z)
| PmRuntimePutSync
| PmRuntimeEnable
| PmRuntimeDisable
| PmRuntimeGetNoresume
| PmRuntimePut
| DevmKzalloc (ok : bool)
| PlatformSetDrvdata
| DevmPlatformIoremapResource (p : Z)
| DevmClkGet (p : Z)
| PwmchipAdd (r : Z)
| PwmchipRemove
| DevErr.

(** The answers of the device and of the kernel, each a function of the
    calls made so far. *)
Record environment : Type := mkEnv {
  env_readl : list call -> Z -> Z;
  env_clk_get_rate : list call -> Z;
  env_clk_prepare_enable : list call -> Z;
  env_pm_runtime_get_sync : list call -> Z;
  env_devm_kzalloc : list call -> bool;
  env_devm_platform_ioremap_resource : list call -> Z;
  env_devm_clk_get : list call -> Z;
  env_pwmchip_add : list call -> Z
}.

(** A driver computation reads the calls made so far and returns a value
    with the calls it makes itself. *)
Definition K (A : Type) : Type := list call -> A * list call.

Definition retK {A : Type} (a : A) : K A := fun _ => (a, []).

Definition bindK {A B : Type} (c : K A) (k : A -> K B) : K B :=
  fun h => let (a, e1) := c h in
           let (b, e2) := k a (h ++ e1) in
           (b, e1 ++ e2).

Notation "x <~ c ;; k" := (bindK c (fun x => k))
  (at level 61, c at next level, right associativity).
Notation "c ;;~ k" := (bindK c (fun _ => k))
  (at level 61, right associativity).

Section Driver.

Variable env : environment.

Definition readl (off : Z) : K Z :=
  fun h => let v := u32 (env_readl env h off) in (v, [Readl off v]).

Definition writel (val off : Z) : K unit :=
  fun _ => (tt, [Writel (u32 val) off]).

Definition clk_get_rate : K Z :=
  fun h => let r := u64 (env_clk_get_rate env h) in (r, [ClkGetRate r]).

Definition clk_prepare_enable : K Z :=
  fun h => let r := s32 (env_clk_prepare_enable env h) in
           (r, [ClkPrepareEnable r]).

Definition clk_disable_unprepare : K unit :=
  fun _ => (tt, [ClkDisableUnprepare]).

Definition pm_runtime_get_sync : K Z :=
  fun h => let r := s32 (env_pm_runtime_get_sync env h) in
           (r, [PmRuntimeGetSync r]).

Definition pm_runtime_put_sync : K unit := fun _ => (tt, [PmRuntimePutSync]).
Definition pm_runtime_enable : K unit := fun _ => (tt, [PmRuntimeEnable]).
Definition pm_runtime_disable : K unit := fun _ => (tt, [PmRuntimeDisable]).
Definition pm_runtime_get_noresume : K unit :=
  fun _ => (tt, [PmRuntimeGetNoresume]).
Definition pm_runtime_put : K unit := fun _ => (tt, [PmRuntimePut]).

Definition devm_kzalloc : K bool :=
  fun h => let ok := env_devm_kzalloc env h in (ok, [DevmKzalloc ok]).

Definition platform_set_drvdata : K unit :=
  fun _ => (tt, [PlatformSetDrvdata]).

Definition devm_platform_ioremap_resource : K Z :=
  fun h => let p := u64 (env_devm_platform_ioremap_resource env h) in
           (p, [DevmPlatformIoremapResource p]).

Definition devm_clk_get : K Z :=
  fun h => let p := u64 (env_devm_clk_get env h) in (p, [DevmClkGet p]).

Definition pwmchip_add : K Z :=
  fun h => let r := s32 (env_pwmchip_add env h) in (r, [PwmchipAdd r]).

Definition pwmchip_remove : K unit := fun _ => (tt, [PwmchipRemove]).

Definition dev_err : K unit := fun _ => (tt, [DevErr]).

Definition thead_pwm_clk_prepare_enable : K Z := clk_prepare_enable.

Definition thead_pwm_clk_disable_unprepare : K unit := clk_disable_unprepare.

Definition thead_pwm_enable (pwm : pwm_device) : K Z :=
  ret <~ pm_runtime_get_sync ;;
  if ret <? 0 then
    dev_err ;;~ retK ret
  else
    value <~ readl (LIGHT_PWM_CTRL (hwpwm pwm)) ;;
    let value := u32 (Z.lor value PWM_START) in
    writel value (LIGHT_PWM_CTRL (hwpwm pwm)) ;;~
    retK 0.

Definition thead_pwm_disable (pwm : pwm_device) : K unit :=
  value <~ readl (LIGHT_PWM_CTRL (hwpwm pwm)) ;;
  let value := u32 (Z.land value (u64 (Z.lnot PWM_START))) in
  writel value (LIGHT_PWM_CTRL (hwpwm pwm)) ;;~
  pm_runtime_put_sync.

Definition thead_pwm_config (pwm : pwm_device) (duty_ns period_ns : Z)
  : K Z :=
  rate <~ clk_get_rate ;;
  let pwm_cfg :=
    u32 (Z.lor (Z.lor (Z.lor PWM_INFACTOUT PWM_FPOUT) PWM_CONTINUOUS_MODE)
               PWM_INT_EN) in
  if duty_ns >? period_ns then
    dev_err ;;~ retK (s32 (- EINVAL))
  else
    ret <~ pm_runtime_get_sync ;;
    if ret <? 0 then
      dev_err ;;~ retK ret
    else
      writel pwm_cfg (LIGHT_PWM_CTRL (hwpwm pwm)) ;;~
      let period_cycle := u64 (u64 period_ns * rate) in
      let period_cycle := period_cycle / NSEC_PER_SEC in
      writel period_cycle (LIGHT_PWM_PER (hwpwm pwm)) ;;~
      let duty_cycle := u64 (u64 duty_ns * rate) in
      let duty_cycle := duty_cycle / NSEC_PER_SEC in
      writel duty_cycle (LIGHT_PWM_FP (hwpwm pwm)) ;;~
      pwm_cfg <~ readl (LIGHT_PWM_CTRL (hwpwm pwm)) ;;
      let pwm_cfg := u32 (Z.lor pwm_cfg PWM_CFG_UPDATE) in
      writel pwm_cfg (LIGHT_PWM_CTRL (hwpwm pwm)) ;;~
      pm_runtime_put_sync ;;~
      retK 0.

Definition thead_pwm_set_polarity (pwm : pwm_device)
           (polarity : pwm_polarity) : K Z :=
  value <~ readl (LIGHT_PWM_CTRL (hwpwm pwm)) ;;
  ret <~ pm_runtime_get_sync ;;
  if ret <? 0 then
    dev_err ;;~ retK ret
  else
    let value :=
      match polarity with
      | PWM_POLARITY_NORMAL => u32 (Z.lor value PWM_FPOUT)
      | PWM_POLARITY_INVERSED => u32 (Z.land value (u64 (Z.lnot PWM_FPOUT)))
      end in
    writel value (LIGHT_PWM_CTRL (hwpwm pwm)) ;;~
    pm_runtime_put_sync ;;~
    retK 0.

Definition thead_pwm_apply (pwm : pwm_device) (state : pwm_state) : K Z :=
  let was_enabled := enabled (cur pwm) in
  (if negb (polarity_eqb (polarity state) (polarity (cur pwm))) then
     thead_pwm_set_polarity pwm (polarity state) ;;~ retK tt
   else retK tt) ;;~
  if negb (enabled state) then
    (if was_enabled then thead_pwm_disable pwm else retK tt) ;;~
    retK 0
  else
    err <~ thead_pwm_config pwm (s32 (duty_cycle state)) (s32 (period state)) ;;
    if negb (err =? 0) then retK err
    else if negb was_enabled then thead_pwm_enable pwm
    else retK 0.

Definition thead_pwm_runtime_suspend : K Z :=
  thead_pwm_clk_disable_unprepare ;;~ retK 0.

Definition thead_pwm_runtime_resume : K Z :=
  ret <~ thead_pwm_clk_prepare_enable ;;
  if negb (ret =? 0) then dev_err ;;~ retK ret else retK 0.

Definition thead_pwm_probe : K Z :=
  pc <~ devm_kzalloc ;;
  if negb pc then retK (s32 (- ENOMEM))
  else
    platform_set_drvdata ;;~
    mmio_base <~ devm_platform_ioremap_resource ;;
    if IS_ERR mmio_base then retK (PTR_ERR mmio_base)
    else
      clk <~ devm_clk_get ;;
      if IS_ERR clk then retK (PTR_ERR clk)
      else
        pm_runtime_enable ;;~
        pm_runtime_get_noresume ;;~
        ret <~ thead_pwm_clk_prepare_enable ;;
        if negb (ret =? 0) then
          dev_err ;;~
          (* err_pm_disable: *)
          pm_runtime_disable ;;~
          retK ret
        else
          ret <~ pwmchip_add ;;
          if negb (ret =? 0) then
            (* err_clk_disable: *)
            thead_pwm_clk_disable_unprepare ;;~
            (* err_pm_disable: *)
            pm_runtime_disable ;;~
            retK ret
          else
            pm_runtime_put ;;~
            retK 0.

Definition thead_pwm_remove : K unit :=
  pm_runtime_disable ;;~
  thead_pwm_clk_disable_unprepare ;;~
  pwmchip_remove.

End Driver.

(** ** What a trace of driver calls shows *)

(** Every call a computation makes, whatever happened before, satisfies
    [P]. *)
Definition always {A : Type} (P : call -> Prop) (c : K A) : Prop :=
  forall h, Forall P (snd (c h)).

(** The register a call accesses, if it is a register access. *)
Definition call_offset (c : call) : option Z :=
  match c with
  | Readl off _ => Some off
  | Writel _ off => Some off
  | _ => None
  end.

(** A register access goes to the control, period or duty register of
    channel [n]. *)
Definition in_channel (n : Z) (c : call) : Prop :=
  match call_offset c with
  | Some off =>
      off = LIGHT_PWM_CTRL n \/ off = LIGHT_PWM_PER n \/ off = LIGHT_PWM_FP n
  | None => True
  end.

(** A register access stays out of the 0x20-byte window of channel [n]. *)
Definition off_channel (n : Z) (c : call) : Prop :=
  match call_offset c with
  | Some off => ~ (n * 0x20 <= off < n * 0x20 + 0x20)
  | None => True
  end.

Definition is_write (c : call) : bool :=
  match c with Writel _ _ => true | _ => false end.

(** Runtime-PM references taken minus references dropped. *)
Definition pm_refs (evs : list call) : Z :=
  fold_right (fun c acc => match c with
                           | PmRuntimeGetSync _ => acc + 1
                           | PmRuntimeGetNoresume => acc + 1
                           | PmRuntimePutSync => acc - 1
                           | PmRuntimePut => acc - 1
                           | _ => acc
                           end) 0 evs.

(** Successful clock enables minus clock disables. *)
Definition clk_enables (evs : list call) : Z :=
  fold_right (fun c acc => match c with
                           | ClkPrepareEnable r =>
                               if r =? 0 then acc + 1 else acc
                           | ClkDisableUnprepare => acc - 1
                           | _ => acc
                           end) 0 evs.

(** Calls to [pm_runtime_enable] minus calls to [pm_runtime_disable]. *)
Definition pm_enables (evs : list call) : Z :=
  fold_right (fun c acc => match c with
                           | PmRuntimeEnable => acc + 1
                           | PmRuntimeDisable => acc - 1
                           | _ => acc
                           end) 0 evs.

(** Chips registered minus chips removed. *)
Definition chips_added (evs : list call) : Z :=
  fold_right (fun c acc => match c with
                           | PwmchipAdd r => if r =? 0 then acc + 1 else acc
                           | PwmchipRemove => acc - 1
                           | _ => acc
                           end) 0 evs.

(** In this environment runtime PM always resumes the device. *)
Definition pm_resumes (env : environment) : Prop :=
  forall h, 0 <= s32 (env_pm_runtime_get_sync env h).

(** In this environment runtime PM never resumes the device. *)
Definition pm_fails (env : environment) : Prop :=
  forall h, s32 (env_pm_runtime_get_sync env h) < 0.

(** An environment that answers the same whatever happened before. *)
Definition constant_env (reg rate pm : Z) : environment :=
  mkEnv (fun _ _ => reg) (fun _ => rate) (fun _ => 0) (fun _ => pm)
        (fun _ => true) (fun _ => 0x1000) (fun _ => 0x2000) (fun _ => 0).

(** A disabled channel 2, and a request for 1 ms period at a quarter duty
    with inversed polarity. *)
Definition channel2_off : pwm_device :=
  mkPwmDevice 2 (mkPwmState 0 0 PWM_POLARITY_NORMAL false).

Definition quarter_duty : pwm_state :=
  mkPwmState 1000000 250000 PWM_POLARITY_INVERSED true.

(** ** Bytes and little-endian words *)

Lemma upd_same (m : memory) (a : Z) (b : byte) : upd m a b a = b.
Proof. unfold upd. now rewrite Z.eqb_refl. Qed.

Lemma upd_other (m : memory) (a a' : Z) (b : byte) :
  a' <> a -> upd m a b a' = m a'.
Proof. unfold upd. intros H. destruct (Z.eqb_spec a' a); congruence. Qed.

Lemma unsigned_high_bits (b : byte) (p : Z) :
  8 <= p -> Z.testbit (byte.unsigned b) p = false.
Proof.
  intros Hp. rewrite <- (byte.wrap_unsigned b). unfold byte.wrap.
  apply Z.mod_pow2_bits_high. lia.
Qed.

Lemma byte_of_Z_bits (x : Z) (b : byte) :
  (forall q, 0 <= q < 8 -> Z.testbit x q = Z.testbit (byte.unsigned b) q) ->
  byte.of_Z x = b.
Proof.
  intros H. apply byte.unsigned_inj. rewrite byte.unsigned_of_Z.
  unfold byte.wrap. apply Z.bits_inj'. intros q Hq.
  destruct (Z_lt_le_dec q 8) as [Hlt | Hge].
  - rewrite Z.mod_pow2_bits_low by lia. apply H. lia.
  - rewrite Z.mod_pow2_bits_high by lia.
    symmetry. now apply unsigned_high_bits.
Qed.

Lemma byte_of_Z_ext (x y : Z) :
  (forall q, 0 <= q < 8 -> Z.testbit x q = Z.testbit y q) ->
  byte.of_Z x = byte.of_Z y.
Proof.
  intros H. apply byte_of_Z_bits. intros q Hq.
  rewrite byte.unsigned_of_Z. unfold byte.wrap.
  rewrite Z.mod_pow2_bits_low by lia. now apply H.
Qed.

Lemma le_load_nonneg (m : memory) (n : nat) :
  forall a, 0 <= le_load m a n.
Proof.
  induction n as [| k IH]; intros a; cbn [le_load]; [lia |].
  apply Z.lor_nonneg. split.
  - pose proof (byte.unsigned_range (m a)). lia.
  - apply Z.shiftl_nonneg. apply IH.
Qed.

Lemma le_load_bit (m : memory) (n : nat) :
  forall a j q, 0 <= j < Z.of_nat n -> 0 <= q < 8 ->
    Z.testbit (le_load m a n) (8 * j + q) =
    Z.testbit (byte.unsigned (m (a + j))) q.
Proof.
  induction n as [| k IH]; intros a j q Hj Hq; [lia |].
  cbn [le_load]. rewrite Z.lor_spec.
  destruct (Z.eq_dec j 0) as [-> | Hne].
  - rewrite Z.shiftl_spec_low by lia.
    rewrite Z.add_0_r, orb_false_r. now replace (8 * 0 + q) with q by lia.
  - rewrite unsigned_high_bits by lia.
    rewrite Z.shiftl_spec by lia. cbn [orb].
    replace (8 * j + q - 8) with (8 * (j - 1) + q) by lia.
    rewrite IH by lia. do 3 f_equal. lia.
Qed.

Lemma le_load_high_bits (m : memory) (n : nat) :
  forall a p, 8 * Z.of_nat n <= p -> Z.testbit (le_load m a n) p = false.
Proof.
  induction n as [| k IH]; intros a p Hp; cbn [le_load].
  - apply Z.bits_0.
  - rewrite Z.lor_spec, unsigned_high_bits by lia.
    rewrite Z.shiftl_spec by lia. apply IH. lia.
Qed.

Lemma byte_at_le_load (m : memory) (n : nat) (a i : Z) :
  0 <= i < Z.of_nat n -> byte_at (le_load m a n) i = m (a + i).
Proof.
  intros Hi. unfold byte_at. apply byte_of_Z_bits. intros q Hq.
  rewrite Z.shiftr_spec by lia.
  replace (q + 8 * i) with (8 * i + q) by lia. now apply le_load_bit.
Qed.

Lemma le_store_outside (n : nat) :
  forall m a w a', a' < a \/ a + Z.of_nat n <= a' ->
    le_store m a n w a' = m a'.
Proof.
  induction n as [| k IH]; intros m a w a' H; cbn [le_store]; [reflexivity |].
  rewrite IH by lia. apply upd_other. lia.
Qed.

Lemma le_store_inside (n : nat) :
  forall m a w i, 0 <= i < Z.of_nat n ->
    le_store m a n w (a + i) = byte_at w i.
Proof.
  induction n as [| k IH]; intros m a w i Hi; [lia |].
  cbn [le_store]. destruct (Z.eq_dec i 0) as [-> | Hne].
  - rewrite le_store_outside by lia. rewrite Z.add_0_r, upd_same.
    unfold byte_at. now rewrite Z.shiftr_0_r.
  - replace (a + i) with (a + 1 + (i - 1)) by lia.
    rewrite IH by lia. unfold byte_at.
    rewrite Z.shiftr_shiftr by lia. do 2 f_equal. lia.
Qed.

Lemma le_store_le_load (n : nat) (m m0 : memory) (d s i : Z) :
  0 <= i < Z.of_nat n ->
  le_store m d n (le_load m0 s n) (d + i) = m0 (s + i).
Proof.
  intros Hi. rewrite le_store_inside by assumption.
  now apply byte_at_le_load.
Qed.

(** ** Platform arithmetic *)

Section Proofs.

Variable XLEN : xlen.

Local Abbreviation W := (BYTES_LONG XLEN).
Local Abbreviation Wn := (Z.to_nat (BYTES_LONG XLEN)).

Lemma BYTES_LONG_cases : W = 4 \/ W = 8.
Proof. unfold BYTES_LONG. destruct XLEN; auto. Qed.

Lemma BYTES_LONG_nat : Z.of_nat Wn = W.
Proof. destruct BYTES_LONG_cases as [-> | ->]; reflexivity. Qed.

Lemma size_max_large : 64 * W < 2 ^ (8 * W).
Proof. destruct BYTES_LONG_cases as [-> | ->]; reflexivity. Qed.

Lemma wrap_small (z : Z) : 0 <= z < 2 ^ (8 * W) -> wrap XLEN z = z.
Proof. intros H. unfold wrap. now apply Z.mod_small. Qed.

Lemma land_WORD_MASK (a : Z) : Z.land a (WORD_MASK XLEN) = a mod W.
Proof.
  unfold WORD_MASK.
  destruct BYTES_LONG_cases as [-> | ->].
  - change (4 - 1) with (Z.ones 2). now rewrite Z.land_ones by lia.
  - change (8 - 1) with (Z.ones 3). now rewrite Z.land_ones by lia.
Qed.

Lemma land_block_mask (c : Z) : Z.land c (W * 8 - 1) = c mod (8 * W).
Proof.
  destruct BYTES_LONG_cases as [-> | ->].
  - change (4 * 8 - 1) with (Z.ones 5). now rewrite Z.land_ones by lia.
  - change (8 * 8 - 1) with (Z.ones 6). now rewrite Z.land_ones by lia.
Qed.

Lemma land_lnot_block_mask (c : Z) :
  0 <= c < 2 ^ (8 * W) ->
  Z.land c (wrap XLEN (Z.lnot (W * 8 - 1))) = 8 * W * (c / (8 * W)).
Proof.
  intros Hc. unfold wrap.
  rewrite <- Z.land_ones by (destruct BYTES_LONG_cases as [-> | ->]; lia).
  rewrite (Z.land_comm (Z.lnot _)), Z.land_assoc.
  rewrite (Z.land_ones c) by (destruct BYTES_LONG_cases as [-> | ->]; lia).
  rewrite (Z.mod_small c) by assumption.
  rewrite <- Z.ldiff_land.
  destruct BYTES_LONG_cases as [-> | ->].
  - change (4 * 8 - 1) with (Z.ones 5).
    rewrite Z.ldiff_ones_r by lia.
    rewrite Z.shiftr_div_pow2, Z.shiftl_mul_pow2 by lia.
    change (2 ^ 5) with 32. change (8 * 4) with 32. lia.
  - change (8 * 8 - 1) with (Z.ones 6).
    rewrite Z.ldiff_ones_r by lia.
    rewrite Z.shiftr_div_pow2, Z.shiftl_mul_pow2 by lia.
    change (2 ^ 6) with 64. change (8 * 8) with 64. lia.
Qed.

(** ** The byte loops *)

Lemma state_eta (st : state) : st = mkState (mem st) (trace st ++ []).
Proof. destruct st; cbn. now rewrite app_nil_r. Qed.

Lemma reference_copy_outside (n : nat) :
  forall m d s a, a < d \/ d + Z.of_nat n <= a ->
    reference_copy m d s n a = m a.
Proof.
  induction n as [| k IH]; intros m d s a H; cbn [reference_copy];
    [reflexivity |].
  rewrite IH by lia. apply upd_other. lia.
Qed.

Lemma reference_copy_copied (n : nat) :
  forall m d s, disjoint d s (Z.of_nat n) ->
    copied m (reference_copy m d s n) d s (Z.of_nat n).
Proof.
  unfold disjoint, copied.
  induction n as [| k IH]; intros m d s Hdis i Hi; [lia |].
  cbn [reference_copy]. destruct (Z.eq_dec i 0) as [-> | Hne].
  - rewrite reference_copy_outside by lia.
    now rewrite !Z.add_0_r, upd_same.
  - replace (d + i) with (d + 1 + (i - 1)) by lia.
    rewrite IH by lia. rewrite upd_other by lia. f_equal. lia.
Qed.

Lemma byte_events_store (D N : Z) (n : nat) :
  forall d s, D <= d -> d + Z.of_nat n <= D + N ->
    Forall (store_inside D N) (byte_events d s n).
Proof.
  induction n as [| k IH]; intros d s Hd Hn; cbn [byte_events];
    [constructor |].
  repeat constructor; cbn; try lia. apply IH; lia.
Qed.

Lemma byte_events_load (S N : Z) (n : nat) :
  forall d s, S <= s -> s + Z.of_nat n <= S + N ->
    Forall (load_inside S N) (byte_events d s n).
Proof.
  induction n as [| k IH]; intros d s Hs Hn; cbn [byte_events];
    [constructor |].
  repeat constructor; cbn; try lia. apply IH; lia.
Qed.

Lemma byte_events_sized (n : nat) :
  forall d s, Forall byte_sized (byte_events d s n).
Proof.
  induction n as [| k IH]; intros d s; cbn [byte_events];
    repeat constructor. apply IH.
Qed.

Lemma load_inside_within (S N : Z) (evs : list access) :
  Forall (load_inside S N) evs -> Forall (load_within_words XLEN S N) evs.
Proof.
  apply Forall_impl. intros [a sz | a sz]; cbn; auto.
Qed.

Lemma copy_remainder_run (n : nat) :
  forall fuel d s st, (n <= fuel)%nat -> Z.of_nat n < 2 ^ (8 * W) ->
    copy_remainder XLEN fuel d s (Z.of_nat n) st =
    Some (tt, mkState (reference_copy (mem st) d s n)
                      (trace st ++ byte_events d s n)).
Proof.
  induction n as [| k IH]; intros fuel d s st Hfuel Hn.
  - destruct fuel; cbn; unfold ret; now rewrite <- state_eta.
  - destruct fuel as [| fuel]; [lia |].
    cbn [copy_remainder].
    replace (Z.of_nat (S k) =? 0) with false by (symmetry; apply Z.eqb_neq; lia).
    unfold bind, load_u8, store_u8, log. cbn [mem trace].
    replace (Z.of_nat (S k) - 1) with (Z.of_nat k) by lia.
    rewrite wrap_small by lia.
    rewrite IH by lia. cbn [mem trace reference_copy byte_events].
    now rewrite <- !app_assoc.
Qed.

Lemma align_dest_run (k : nat) :
  forall fuel d s count st,
    (- d) mod W = Z.of_nat k -> (k <= fuel)%nat ->
    Z.of_nat k <= count < 2 ^ (8 * W) ->
    align_dest XLEN fuel d s count st =
    Some ((d + Z.of_nat k, s + Z.of_nat k, count - Z.of_nat k),
          mkState (reference_copy (mem st) d s k)
                  (trace st ++ byte_events d s k)).
Proof.
  induction k as [| k IH]; intros fuel d s count st Hd Hfuel Hc.
  - assert (Hz : (Z.land d (WORD_MASK XLEN) =? 0) = true).
    { rewrite land_WORD_MASK. apply Z.eqb_eq.
      destruct BYTES_LONG_cases as [E | E]; rewrite E in *;
        Z.div_mod_to_equations; lia. }
    destruct fuel; cbn [align_dest]; rewrite Hz; unfold ret;
      cbn [Z.of_nat reference_copy byte_events];
      now rewrite !Z.add_0_r, Z.sub_0_r, <- state_eta.
  - assert (Hz : (Z.land d (WORD_MASK XLEN) =? 0) = false).
    { rewrite land_WORD_MASK. apply Z.eqb_neq.
      destruct BYTES_LONG_cases as [E | E]; rewrite E in *;
        Z.div_mod_to_equations; lia. }
    destruct fuel as [| fuel]; [lia |].
    cbn [align_dest]. rewrite Hz.
    unfold bind, load_u8, store_u8, log. cbn [mem trace].
    rewrite wrap_small by lia.
    rewrite (IH fuel (d + 1) (s + 1) (count - 1)); try lia.
    + cbn [mem trace reference_copy byte_events].
      rewrite <- !app_assoc. cbn [app].
      replace (d + 1 + Z.of_nat k) with (d + Z.of_nat (S k)) by lia.
      replace (s + 1 + Z.of_nat k) with (s + Z.of_nat (S k)) by lia.
      replace (count - 1 - Z.of_nat k) with (count - Z.of_nat (S k)) by lia.
      reflexivity.
    + destruct BYTES_LONG_cases as [E | E]; rewrite E in *;
        Z.div_mod_to_equations; lia.
Qed.

(** ** The unrolled block helper *)

Lemma fold_store_outside (m : memory) (dest src : Z) (l : list Z) :
  forall m' a,
    (forall j, In j l -> a < idx XLEN dest j \/ idx XLEN dest j + W <= a) ->
    fold_left (fun m' i => le_store m' (idx XLEN dest i) Wn
                                    (le_load m (idx XLEN src i) Wn)) l m' a = m' a.
Proof.
  induction l as [| j l IH]; intros m' a H; cbn [fold_left]; [reflexivity |].
  rewrite IH by (intros j' Hj'; apply H; now right).
  apply le_store_outside. rewrite BYTES_LONG_nat. apply H. now left.
Qed.

Lemma fold_store_inside (m : memory) (dest src : Z) (l : list Z) :
  forall m' a j,
    In j l -> idx XLEN dest j <= a < idx XLEN dest j + W ->
    (forall j', In j' l -> j' <> j -> a < idx XLEN dest j' \/ idx XLEN dest j' + W <= a) ->
    fold_left (fun m' i => le_store m' (idx XLEN dest i) Wn
                                    (le_load m (idx XLEN src i) Wn)) l m' a =
    m (src + (a - dest)).
Proof.
  induction l as [| j0 l IH] using rev_ind; intros m' a j Hin Ha Hother;
    [contradiction |].
  rewrite fold_left_app. cbn [fold_left].
  destruct (Z.eq_dec j0 j) as [-> | Hne].
  - replace a with (idx XLEN dest j + (a - idx XLEN dest j)) at 1 by lia.
    rewrite le_store_le_load by (rewrite BYTES_LONG_nat; lia).
    f_equal. unfold idx. lia.
  - rewrite le_store_outside
      by (rewrite BYTES_LONG_nat; apply Hother;
          [apply in_or_app; right; now left | assumption]).
    apply (IH m' a j); try assumption.
    + apply in_app_or in Hin. destruct Hin as [Hin | [Hin | []]];
        [assumption | congruence].
    + intros j' Hj' Hj'ne. apply Hother; [apply in_or_app; now left | assumption].
Qed.

Lemma block_mem_outside (m : memory) (dest src a : Z) :
  a < dest \/ dest + 8 * W <= a -> block_mem XLEN m dest src a = m a.
Proof.
  intros Ha. unfold block_mem. apply fold_store_outside.
  unfold unroll, idx. intros j Hj.
  pose proof BYTES_LONG_cases. cbn [In] in Hj.
  repeat (destruct Hj as [<- | Hj]; [lia |]). contradiction.
Qed.

Lemma block_mem_copied (m : memory) (dest src i : Z) :
  0 <= i < 8 * W -> block_mem XLEN m dest src (dest + i) = m (src + i).
Proof.
  intros Hi. unfold block_mem.
  replace (src + i) with (src + (dest + i - dest)) by lia.
  assert (HW : 0 < W) by (destruct BYTES_LONG_cases; lia).
  assert (Hq : 0 <= i / W < 8)
    by (split; [apply Z.div_pos; lia | apply Z.div_lt_upper_bound; lia]).
  pose proof (Z.mod_pos_bound i W HW) as Hr.
  pose proof (Z.div_mod i W ltac:(lia)) as Hdm.
  apply (fold_store_inside m dest src unroll m (dest + i) (i / W)).
  - unfold unroll. cbn [In].
    assert (i / W = 0 \/ i / W = 1 \/ i / W = 2 \/ i / W = 3 \/
            i / W = 4 \/ i / W = 5 \/ i / W = 6 \/ i / W = 7) by lia.
    intuition auto.
  - unfold idx. nia.
  - intros j' _ Hne. unfold idx. nia.
Qed.

Lemma aligned_mem_outside (n : nat) :
  forall m dest src a,
    a < dest \/ dest + 8 * W * Z.of_nat n <= a ->
    aligned_mem XLEN m dest src n a = m a.
Proof.
  pose proof BYTES_LONG_cases as HW.
  induction n as [| k IH]; intros m dest src a Ha; cbn [aligned_mem];
    [reflexivity |].
  rewrite IH by (unfold idx; lia).
  apply block_mem_outside. lia.
Qed.

Lemma aligned_mem_copied (n : nat) :
  forall m dest src,
    disjoint dest src (8 * W * Z.of_nat n) ->
    copied m (aligned_mem XLEN m dest src n) dest src (8 * W * Z.of_nat n).
Proof.
  pose proof BYTES_LONG_cases as HW. unfold disjoint, copied.
  induction n as [| k IH]; intros m dest src Hdis i Hi; [lia |].
  cbn [aligned_mem].
  destruct (Z_lt_le_dec i (8 * W)) as [Hlt | Hge].
  - rewrite aligned_mem_outside by (unfold idx; lia).
    apply block_mem_copied. lia.
  - replace (dest + i) with (idx XLEN dest 8 + (i - 8 * W))
      by (unfold idx; lia).
    rewrite IH by (unfold idx; lia).
    rewrite block_mem_outside by (unfold idx; lia).
    f_equal. unfold idx. lia.
Qed.

Lemma aligned_events_store (D N : Z) (n : nat) :
  forall dest src, D <= dest -> dest + 8 * W * Z.of_nat n <= D + N ->
    Forall (store_inside D N) (aligned_events XLEN dest src n).
Proof.
  pose proof BYTES_LONG_cases as HW.
  induction n as [| k IH]; intros dest src Hd Hn; cbn [aligned_events];
    [constructor |].
  apply Forall_app. split.
  - unfold block_events, unroll, idx. cbn [map app].
    repeat (apply Forall_cons;
            [cbn [store_inside load_inside]; try exact I; lia |]).
    apply Forall_nil.
  - apply IH; unfold idx; lia.
Qed.

Lemma aligned_events_load (S N : Z) (n : nat) :
  forall dest src, S <= src -> src + 8 * W * Z.of_nat n <= S + N ->
    Forall (load_inside S N) (aligned_events XLEN dest src n).
Proof.
  pose proof BYTES_LONG_cases as HW.
  induction n as [| k IH]; intros dest src Hs Hn; cbn [aligned_events];
    [constructor |].
  apply Forall_app. split.
  - unfold block_events, unroll, idx. cbn [map app].
    repeat (apply Forall_cons;
            [cbn [store_inside load_inside]; try exact I; lia |]).
    apply Forall_nil.
  - apply IH; unfold idx; lia.
Qed.

Lemma aligned_events_bytes (n : nat) :
  forall dest src,
    bytes_loaded (aligned_events XLEN dest src n) = 8 * W * Z.of_nat n /\
    bytes_stored (aligned_events XLEN dest src n) = 8 * W * Z.of_nat n.
Proof.
  induction n as [| k IH]; intros dest src; cbn [aligned_events];
    [unfold bytes_loaded, bytes_stored; cbn [fold_right]; lia |].
  destruct (IH (idx XLEN dest 8) (idx XLEN src 8)) as [IHl IHs].
  unfold block_events, unroll. cbn [map app].
  unfold bytes_loaded, bytes_stored in *. cbn [fold_right].
  rewrite IHl, IHs. split; lia.
Qed.

Lemma __memcpy_aligned_run (n : nat) :
  forall fuel dest src st,
    (n <= fuel)%nat -> 8 * W * Z.of_nat n < 2 ^ (8 * W) ->
    __memcpy_aligned XLEN fuel dest src (8 * W * Z.of_nat n) st =
    Some (tt, mkState (aligned_mem XLEN (mem st) dest src n)
                      (trace st ++ aligned_events XLEN dest src n)).
Proof.
  pose proof BYTES_LONG_cases as HW.
  induction n as [| k IH]; intros fuel dest src st Hfuel Hn.
  - rewrite Z.mul_0_r.
    destruct fuel; cbn; unfold ret; now rewrite <- state_eta.
  - destruct fuel as [| fuel]; [lia |].
    cbn [__memcpy_aligned].
    replace (0 <? 8 * W * Z.of_nat (S k)) with true
      by (symmetry; apply Z.ltb_lt; lia).
    unfold bind, load_ulong, store_ulong, log. cbn [mem trace].
    replace (8 * W * Z.of_nat (S k) - W * 8) with (8 * W * Z.of_nat k) by lia.
    rewrite wrap_small by lia.
    rewrite IH by lia. cbn [mem trace aligned_mem aligned_events].
    unfold block_mem, block_events, unroll. cbn [fold_left map].
    now rewrite <- !app_assoc.
Qed.

Lemma __memcpy_aligned_diverges (fuel : nat) :
  forall dest src count st,
    0 <= count < 2 ^ (8 * W) -> count mod (8 * W) <> 0 ->
    __memcpy_aligned XLEN fuel dest src count st = None.
Proof.
  induction fuel as [| fuel IH]; intros dest src count st Hc Hm;
    cbn [__memcpy_aligned];
    (replace (0 <? count) with true
      by (symmetry; apply Z.ltb_lt;
          destruct (Z.eq_dec count 0) as [-> | ]; [now rewrite Z.mod_0_l in Hm | lia]));
    [reflexivity |].
  unfold bind, load_ulong, store_ulong, log. cbn [mem trace].
  rewrite IH; [reflexivity | apply Z.mod_pos_bound; lia |].
  unfold wrap.
  destruct BYTES_LONG_cases as [E | E]; rewrite E in *;
    [change (2 ^ (8 * 4)) with (32 * 134217728) in * |
     change (2 ^ (8 * 8)) with (64 * 288230376151711744) in *];
    Z.div_mod_to_equations; lia.
Qed.

(** ** The shift-merge loop *)

Lemma merge_byte (last next distance i : Z) :
  0 < distance < W -> 0 <= i < W ->
  (forall p, 8 * W <= p -> Z.testbit last p = false) ->
  byte_at (merge XLEN last next distance) i =
  if i <? W - distance then byte_at last (i + distance)
  else byte_at next (i - (W - distance)).
Proof.
  intros Hd Hi Hlast. unfold byte_at, merge, wrap.
  destruct (Z.ltb_spec i (W - distance)) as [Hlt | Hge];
    apply byte_of_Z_ext; intros q Hq;
    rewrite !Z.shiftr_spec by lia;
    rewrite Z.lor_spec, Z.shiftr_spec by lia;
    rewrite Z.mod_pow2_bits_low by lia.
  - rewrite Z.shiftl_spec_low by lia. rewrite orb_false_r. f_equal. lia.
  - rewrite Hlast by lia. rewrite Z.shiftl_spec by lia. cbn [orb].
    f_equal. lia.
Qed.

Lemma le_load_word_high (m : memory) (a p : Z) :
  8 * W <= p -> Z.testbit (le_load m a Wn) p = false.
Proof. intros Hp. apply le_load_high_bits. rewrite BYTES_LONG_nat. lia. Qed.

Lemma shift_mem_outside (distance : Z) (n : nat) :
  forall m d s next a,
    a < d \/ d + W * Z.of_nat n <= a ->
    shift_mem XLEN m distance d s next n a = m a.
Proof.
  pose proof BYTES_LONG_cases as HW.
  induction n as [| k IH]; intros m d s next a Ha; cbn [shift_mem];
    [reflexivity |].
  rewrite IH by (unfold idx; lia).
  apply le_store_outside. rewrite BYTES_LONG_nat. unfold idx. lia.
Qed.

Lemma shift_mem_copied (distance : Z) (n : nat) :
  0 < distance < W ->
  forall m d s next,
    disjoint d (s + distance) (W * Z.of_nat n) ->
    (forall p, 8 * W <= p -> Z.testbit next p = false) ->
    (forall j, distance <= j < W -> (0 < n)%nat -> byte_at next j = m (s + j)) ->
    copied m (shift_mem XLEN m distance d s next n) d (s + distance)
           (W * Z.of_nat n).
Proof.
  intros Hdist. unfold disjoint, copied.
  induction n as [| k IH]; intros m d s next Hdis Hhigh Hnext i Hi; [lia |].
  cbn [shift_mem].
  set (next' := le_load m (idx XLEN s 1) Wn).
  set (m1 := le_store m (idx XLEN d 0) Wn (merge XLEN next next' distance)).
  assert (Hm1 : forall a, a < d \/ d + W <= a -> m1 a = m a).
  { intros a Ha. unfold m1. apply le_store_outside.
    rewrite BYTES_LONG_nat. unfold idx. lia. }
  destruct (Z_lt_le_dec i W) as [Hlt | Hge].
  - rewrite shift_mem_outside by (unfold idx; lia).
    unfold m1. replace (d + i) with (idx XLEN d 0 + i) by (unfold idx; lia).
    rewrite le_store_inside by (rewrite BYTES_LONG_nat; lia).
    rewrite merge_byte by (assumption || lia).
    destruct (Z.ltb_spec i (W - distance)) as [Hlo | Hhi].
    + rewrite Hnext by lia. f_equal. lia.
    + unfold next'. rewrite byte_at_le_load by (rewrite BYTES_LONG_nat; lia).
      f_equal. unfold idx. lia.
  - replace (d + i) with (idx XLEN d 1 + (i - W)) by (unfold idx; lia).
    rewrite IH.
    + rewrite Hm1 by (unfold idx; lia).
      f_equal. unfold idx. lia.
    + unfold idx. lia.
    + intros p Hp. unfold next'. now apply le_load_word_high.
    + intros j Hj Hk. unfold next'.
      rewrite byte_at_le_load by (rewrite BYTES_LONG_nat; lia).
      symmetry. apply Hm1. unfold idx.
      destruct BYTES_LONG_cases as [E | E]; rewrite E in *; lia.
    + lia.
Qed.

Lemma shift_events_store (D N : Z) (n : nat) :
  forall d s, D <= d -> d + W * Z.of_nat n <= D + N ->
    Forall (store_inside D N) (shift_events XLEN d s n).
Proof.
  pose proof BYTES_LONG_cases as HW.
  induction n as [| k IH]; intros d s Hd Hn; cbn [shift_events];
    [constructor |].
  apply Forall_cons; [exact I |].
  apply Forall_cons; [cbn [store_inside]; unfold idx; lia |].
  apply IH; unfold idx; lia.
Qed.

Lemma shift_events_load (S N distance : Z) (n : nat) :
  0 < distance < W ->
  forall d s, s mod W = 0 -> S < s + W ->
    s + distance + W * Z.of_nat n <= S + N ->
    Forall (load_within_words XLEN S N) (shift_events XLEN d s n).
Proof.
  intros Hdist. pose proof BYTES_LONG_cases as HW.
  assert (Hal : forall s, s mod W = 0 -> idx XLEN s 1 mod W = 0).
  { intros s Hs. unfold idx. rewrite Z.mod_add by lia. exact Hs. }
  induction n as [| k IH]; intros d s Hs HS Hn; cbn [shift_events];
    [constructor |].
  apply Forall_cons.
  - cbn [load_within_words]. right. rewrite Hal by assumption.
    unfold idx. lia.
  - apply Forall_cons; [exact I |].
    apply IH; [now apply Hal | |]; unfold idx; lia.
Qed.

Lemma shift_loop_run (n : nat) :
  forall fuel distance d s r next st,
    (n <= fuel)%nat -> 0 <= r < W -> W * Z.of_nat n + r < 2 ^ (8 * W) ->
    shift_loop XLEN fuel distance d s (W * Z.of_nat n + r) next st =
    Some ((d + W * Z.of_nat n, s + W * Z.of_nat n, r),
          mkState (shift_mem XLEN (mem st) distance d s next n)
                  (trace st ++ shift_events XLEN d s n)).
Proof.
  pose proof BYTES_LONG_cases as HW.
  induction n as [| k IH]; intros fuel distance d s r next st Hfuel Hr Hn.
  - rewrite Z.mul_0_r, !Z.add_0_r, Z.add_0_l.
    assert (Hlt : (W <=? r) = false) by (apply Z.leb_gt; lia).
    destruct fuel; cbn [shift_loop shift_mem shift_events]; rewrite Hlt;
      unfold ret; now rewrite <- state_eta.
  - destruct fuel as [| fuel]; [lia |].
    cbn [shift_loop].
    replace (W <=? W * Z.of_nat (S k) + r) with true
      by (symmetry; apply Z.leb_le; lia).
    unfold bind, load_ulong, store_ulong, log. cbn [mem trace].
    replace (W * Z.of_nat (S k) + r - W) with (W * Z.of_nat k + r) by lia.
    rewrite wrap_small by lia.
    rewrite IH by lia. cbn [mem trace shift_mem shift_events].
    rewrite <- !app_assoc. cbn [app].
    replace (idx XLEN d 1 + W * Z.of_nat k) with (d + W * Z.of_nat (S k))
      by (unfold idx; lia).
    replace (idx XLEN s 1 + W * Z.of_nat k) with (s + W * Z.of_nat (S k))
      by (unfold idx; lia).
    reflexivity.
Qed.

Lemma shift_merge_run (n : nat) (fuel : nat) (distance d s r : Z) (st : state) :
  (n <= fuel)%nat -> 0 <= r < W -> W * Z.of_nat n + r < 2 ^ (8 * W) ->
  shift_merge XLEN fuel distance d s (W * Z.of_nat n + r) st =
  Some ((d + W * Z.of_nat n, s + W * Z.of_nat n, r),
        mkState (shift_mem XLEN (mem st) distance d (s - distance)
                           (le_load (mem st) (s - distance) Wn) n)
                (trace st ++ Ld (s - distance) W ::
                          shift_events XLEN d (s - distance) n)).
Proof.
  intros Hfuel Hr Hn. unfold shift_merge.
  unfold bind at 1. unfold load_ulong at 1. unfold log. cbn [mem trace].
  unfold bind. rewrite shift_loop_run by assumption.
  unfold ret. cbn [mem trace]. rewrite <- !app_assoc. cbn [app].
  replace (idx XLEN (s - distance) 0) with (s - distance)
    by (unfold idx; lia).
  replace (s - distance + W * Z.of_nat n + distance)
    with (s + W * Z.of_nat n) by lia.
  reflexivity.
Qed.

(** ** Two memories that agree on the source *)

Lemma agree_upto_eq (S N D k k' : Z) (m1 m2 : memory) :
  k = k' -> agree_upto S N D k m1 m2 -> agree_upto S N D k' m1 m2.
Proof. now intros ->. Qed.

Lemma reference_copy_agree (S N D : Z) (n : nat) :
  forall m1 m2 k s,
    0 <= k -> S <= s -> s + Z.of_nat n <= S + N ->
    agree_upto S N D k m1 m2 ->
    agree_upto S N D (k + Z.of_nat n)
               (reference_copy m1 (D + k) s n)
               (reference_copy m2 (D + k) s n).
Proof.
  induction n as [| n IH]; intros m1 m2 k s Hk Hs Hn Hag;
    cbn [reference_copy].
  - eapply agree_upto_eq; [| exact Hag]. lia.
  - replace (D + k + 1) with (D + (k + 1)) by lia.
    eapply agree_upto_eq; [| apply IH; try lia]; [lia |].
    intros a Ha. unfold upd.
    destruct (Z.eqb_spec a (D + k)); apply Hag; lia.
Qed.

Lemma block_mem_agree (S N D : Z) (m1 m2 : memory) (k src : Z) :
  0 <= k -> S <= src -> src + 8 * W <= S + N ->
  agree_upto S N D k m1 m2 ->
  agree_upto S N D (k + 8 * W)
             (block_mem XLEN m1 (D + k) src) (block_mem XLEN m2 (D + k) src).
Proof.
  intros Hk Hs Hn Hag a Ha.
  destruct (Z_lt_le_dec a (D + k)) as [Hlt | Hge];
    [rewrite !block_mem_outside by lia; apply Hag; lia |].
  destruct (Z_lt_le_dec a (D + k + 8 * W)) as [Hin | Hout];
    [| rewrite !block_mem_outside by lia; apply Hag; lia].
  replace a with (D + k + (a - (D + k))) by lia.
  rewrite !block_mem_copied by lia. apply Hag. lia.
Qed.

Lemma aligned_mem_agree (S N D : Z) (n : nat) :
  forall m1 m2 k src,
    0 <= k -> S <= src -> src + 8 * W * Z.of_nat n <= S + N ->
    agree_upto S N D k m1 m2 ->
    agree_upto S N D (k + 8 * W * Z.of_nat n)
               (aligned_mem XLEN m1 (D + k) src n)
               (aligned_mem XLEN m2 (D + k) src n).
Proof.
  pose proof BYTES_LONG_cases as HW.
  induction n as [| n IH]; intros m1 m2 k src Hk Hs Hn Hag;
    cbn [aligned_mem].
  - eapply agree_upto_eq; [| exact Hag]. lia.
  - replace (idx XLEN (D + k) 8) with (D + (k + 8 * W))
      by (unfold idx; lia).
    eapply agree_upto_eq;
      [| apply IH; [| | | apply block_mem_agree; try eassumption]];
      unfold idx; lia.
Qed.

Lemma shift_mem_agree (S N D distance : Z) (n : nat) :
  0 < distance < W ->
  forall m1 m2 k s next1 next2,
    0 <= k -> S <= s + distance ->
    s + distance + W * Z.of_nat n <= S + N ->
    (forall p, 8 * W <= p -> Z.testbit next1 p = false) ->
    (forall p, 8 * W <= p -> Z.testbit next2 p = false) ->
    (forall j, distance <= j < W -> (0 < n)%nat ->
               byte_at next1 j = byte_at next2 j) ->
    agree_upto S N D k m1 m2 ->
    agree_upto S N D (k + W * Z.of_nat n)
               (shift_mem XLEN m1 distance (D + k) s next1 n)
               (shift_mem XLEN m2 distance (D + k) s next2 n).
Proof.
  intros Hdist. pose proof BYTES_LONG_cases as HW.
  induction n as [| n IH];
    intros m1 m2 k s next1 next2 Hk Hs Hn Hh1 Hh2 Hnext Hag;
    cbn [shift_mem].
  - eapply agree_upto_eq; [| exact Hag]. lia.
  - assert (Hpos : 0 <= W * Z.of_nat n)
      by (destruct HW as [E | E]; rewrite E; lia).
    replace (idx XLEN (D + k) 1) with (D + (k + W))
      by (unfold idx; lia).
    replace (idx XLEN (D + k) 0) with (D + k) by (unfold idx; lia).
    replace (idx XLEN s 1) with (s + W) by (unfold idx; lia).
    eapply agree_upto_eq; [| apply IH]; try lia.
    + intros p Hp. now apply le_load_word_high.
    + intros p Hp. now apply le_load_word_high.
    + intros j Hj Hn'.
      rewrite !byte_at_le_load by (rewrite BYTES_LONG_nat; lia).
      apply Hag. left.
      destruct HW as [E | E]; rewrite E in *; lia.
    + intros a Ha.
      destruct (Z_lt_le_dec a (D + k)) as [Hlt | Hge];
        [rewrite !le_store_outside by (rewrite BYTES_LONG_nat; lia);
         apply Hag; lia |].
      destruct (Z_lt_le_dec a (D + k + W)) as [Hin | Hout];
        [| rewrite !le_store_outside by (rewrite BYTES_LONG_nat; lia);
           apply Hag; lia].
      replace a with (D + k + (a - (D + k))) by lia.
      rewrite !le_store_inside by (rewrite BYTES_LONG_nat; lia).
      rewrite !merge_byte by (assumption || lia).
      destruct (Z.ltb_spec (a - (D + k)) (W - distance)) as [Hlo | Hhi].
      * apply Hnext; lia.
      * rewrite !byte_at_le_load by (rewrite BYTES_LONG_nat; lia).
        apply Hag. left. lia.
Qed.

(** ** Phases and their composition *)

Lemma runs_ret {A : Type} (a : A) : runs (ret a) a (fun m => m) [].
Proof. intros st. unfold ret. now rewrite <- state_eta. Qed.

Lemma runs_bind {A B : Type} (c : M A) (k : A -> M B) (a : A) (b : B)
      (F1 F2 : memory -> memory) (e1 e2 : list access) :
  runs c a F1 e1 -> runs (k a) b F2 e2 ->
  runs (bind c k) b (fun m => F2 (F1 m)) (e1 ++ e2).
Proof.
  intros H1 H2 st. unfold bind. rewrite H1, H2. cbn [mem trace].
  now rewrite app_assoc.
Qed.

Lemma phase_skip (D S N : Z) (b : bool) (d s : Z) :
  phase XLEN D S N b (fun m => m) [] d s 0.
Proof.
  repeat split; try constructor.
  - intros m _ i Hi. lia.
  - intros m1 m2 Hag. eapply agree_upto_eq; [| exact Hag]. lia.
Qed.

Lemma phase_seq (D S N : Z) (b : bool) (F1 F2 : memory -> memory)
      (e1 e2 : list access) (d s n1 n2 : Z) :
  0 <= n1 -> 0 <= n2 ->
  phase XLEN D S N b F1 e1 d s n1 ->
  phase XLEN D S N b F2 e2 (d + n1) (s + n1) n2 ->
  phase XLEN D S N b (fun m => F2 (F1 m)) (e1 ++ e2) d s (n1 + n2).
Proof.
  intros Hn1 Hn2 (Hs1 & Hl1 & Hi1 & Hf1 & Hc1 & Ha1)
                 (Hs2 & Hl2 & Hi2 & Hf2 & Hc2 & Ha2).
  repeat split.
  - apply Forall_app. now split.
  - apply Forall_app. now split.
  - intros Hb. apply Forall_app. split; [now apply Hi1 | now apply Hi2].
  - intros m a Ha. rewrite Hf2 by lia. apply Hf1. lia.
  - intros m Hdis i Hi. unfold disjoint in *.
    destruct (Z_lt_le_dec i n1) as [Hlt | Hge].
    + rewrite Hf2 by lia. apply Hc1; lia.
    + replace (d + i) with (d + n1 + (i - n1)) by lia.
      rewrite Hc2 by lia. rewrite Hf1 by lia. f_equal. lia.
  - intros m1 m2 Hag.
    eapply agree_upto_eq; [| apply Ha2].
    2: { eapply agree_upto_eq; [| apply Ha1; exact Hag]. lia. }
    lia.
Qed.

Lemma byte_phase (D S N : Z) (b : bool) (n : nat) (d s : Z) :
  D <= d -> d + Z.of_nat n <= D + N ->
  S <= s -> s + Z.of_nat n <= S + N ->
  phase XLEN D S N b (fun m => reference_copy m d s n) (byte_events d s n)
        d s (Z.of_nat n).
Proof.
  intros Hd Hdn Hs Hsn. repeat split.
  - now apply byte_events_store.
  - apply load_inside_within. now apply byte_events_load.
  - intros _. now apply byte_events_load.
  - intros m a Ha. apply reference_copy_outside. lia.
  - intros m. apply reference_copy_copied.
  - intros m1 m2 Hag.
    pose proof (reference_copy_agree S N D n m1 m2 (d - D) s) as H.
    replace (D + (d - D)) with d in H by lia. apply H; assumption || lia.
Qed.

Lemma aligned_phase (D S N : Z) (b : bool) (n : nat) (d s : Z) :
  D <= d -> d + 8 * W * Z.of_nat n <= D + N ->
  S <= s -> s + 8 * W * Z.of_nat n <= S + N ->
  phase XLEN D S N b (fun m => aligned_mem XLEN m d s n)
        (aligned_events XLEN d s n) d s (8 * W * Z.of_nat n).
Proof.
  intros Hd Hdn Hs Hsn. repeat split.
  - now apply aligned_events_store.
  - apply load_inside_within. now apply aligned_events_load.
  - intros _. now apply aligned_events_load.
  - intros m a Ha. apply aligned_mem_outside. lia.
  - intros m. apply aligned_mem_copied.
  - intros m1 m2 Hag.
    pose proof (aligned_mem_agree S N D n m1 m2 (d - D) s) as H.
    replace (D + (d - D)) with d in H by lia. apply H; assumption || lia.
Qed.

Lemma shift_phase (D S N : Z) (n : nat) (distance d s : Z) :
  0 < distance < W -> (s - distance) mod W = 0 ->
  D <= d -> d + W * Z.of_nat n <= D + N ->
  S <= s -> s + W * Z.of_nat n <= S + N ->
  phase XLEN D S N false
        (fun m => shift_mem XLEN m distance d (s - distance)
                            (le_load m (s - distance) Wn) n)
        (Ld (s - distance) W :: shift_events XLEN d (s - distance) n)
        d s (W * Z.of_nat n).
Proof.
  intros Hdist Hal Hd Hdn Hs Hsn.
  assert (Hpos : 0 <= W * Z.of_nat n)
    by (destruct BYTES_LONG_cases as [E | E]; rewrite E; lia).
  repeat split.
  - apply Forall_cons; [exact I |]. now apply shift_events_store.
  - apply Forall_cons.
    + cbn [load_within_words]. right. repeat split; try assumption; lia.
    + apply (shift_events_load S N distance); try assumption; lia.
  - discriminate.
  - intros m a Ha. apply shift_mem_outside. lia.
  - intros m Hdis i Hi.
    replace (s + i) with (s - distance + distance + i) by lia.
    apply (shift_mem_copied distance n Hdist); try assumption.
    + now replace (s - distance + distance) with s by lia.
    + intros p Hp. now apply le_load_word_high.
    + intros j Hj _. apply byte_at_le_load. rewrite BYTES_LONG_nat. lia.
  - intros m1 m2 Hag.
    pose proof (shift_mem_agree S N D distance n Hdist m1 m2 (d - D)
                                (s - distance)
                                (le_load m1 (s - distance) Wn)
                                (le_load m2 (s - distance) Wn)) as H.
    replace (D + (d - D)) with d in H by lia.
    apply H; try assumption; try lia.
    + intros p Hp. now apply le_load_word_high.
    + intros p Hp. now apply le_load_word_high.
    + intros j Hj Hn.
      rewrite !byte_at_le_load by (rewrite BYTES_LONG_nat; lia).
      apply Hag. left.
      destruct BYTES_LONG_cases as [E | E]; rewrite E in *; lia.
Qed.

(** ** The two bulk branches and the whole routine *)

Lemma copy_remainder_runs (fuel : nat) (d s count : Z) :
  0 <= count < 2 ^ (8 * W) -> (Z.to_nat count <= fuel)%nat ->
  runs (copy_remainder XLEN fuel d s count) tt
       (fun m => reference_copy m d s (Z.to_nat count))
       (byte_events d s (Z.to_nat count)).
Proof.
  intros Hc Hfuel st. rewrite <- (Z2Nat.id count) at 1 by lia.
  apply copy_remainder_run; lia.
Qed.

Lemma aligned_copy_runs (fuel : nat) (d s count : Z) :
  0 <= count < 2 ^ (8 * W) ->
  (Z.to_nat (count / (8 * W)) <= fuel)%nat ->
  runs (aligned_copy XLEN fuel d s count)
       (d + 8 * W * (count / (8 * W)), s + 8 * W * (count / (8 * W)),
        count mod (8 * W))
       (fun m => aligned_mem XLEN m d s (Z.to_nat (count / (8 * W))))
       (aligned_events XLEN d s (Z.to_nat (count / (8 * W)))).
Proof.
  intros Hc Hfuel st. pose proof BYTES_LONG_cases as HW.
  assert (Hq : 0 <= count / (8 * W)) by (apply Z.div_pos; lia).
  assert (Hle : 8 * W * (count / (8 * W)) <= count)
    by (apply Z.mul_div_le; lia).
  unfold aligned_copy.
  rewrite land_lnot_block_mask, land_block_mask by assumption.
  set (n := Z.to_nat (count / (8 * W))) in *.
  assert (En : count / (8 * W) = Z.of_nat n) by lia.
  rewrite En in *. unfold bind.
  rewrite __memcpy_aligned_run by lia. reflexivity.
Qed.

Lemma aligned_copy_phase (D S N : Z) (b : bool) (fuel : nat)
      (d s count : Z) :
  0 <= count < 2 ^ (8 * W) -> (Z.to_nat count <= fuel)%nat ->
  D <= d -> d + count <= D + N -> S <= s -> s + count <= S + N ->
  exists k F evs,
    0 <= k <= count /\
    runs (aligned_copy XLEN fuel d s count) (d + k, s + k, count - k) F evs /\
    phase XLEN D S N b F evs d s k.
Proof.
  intros Hc Hfuel Hd Hdn Hs Hsn. pose proof BYTES_LONG_cases as HW.
  assert (Hq : 0 <= count / (8 * W)) by (apply Z.div_pos; lia).
  assert (Hle : 8 * W * (count / (8 * W)) <= count)
    by (apply Z.mul_div_le; lia).
  assert (Hqc : count / (8 * W) <= count)
    by (apply Z.div_le_upper_bound; nia).
  exists (8 * W * (count / (8 * W))). eexists. eexists.
  split; [lia | split].
  - replace (count - 8 * W * (count / (8 * W))) with (count mod (8 * W))
      by (rewrite (Z.mod_eq count (8 * W)) by lia; reflexivity).
    apply aligned_copy_runs; [assumption | lia].
  - pose proof (aligned_phase D S N b (Z.to_nat (count / (8 * W))) d s) as H.
    rewrite Z2Nat.id in H by assumption. apply H; lia.
Qed.

Lemma shift_merge_phase (D S N : Z) (fuel : nat) (distance d s count : Z) :
  0 < distance < W -> (s - distance) mod W = 0 ->
  0 <= count < 2 ^ (8 * W) -> (Z.to_nat count <= fuel)%nat ->
  D <= d -> d + count <= D + N -> S <= s -> s + count <= S + N ->
  exists k F evs,
    0 <= k <= count /\
    runs (shift_merge XLEN fuel distance d s count)
         (d + k, s + k, count - k) F evs /\
    phase XLEN D S N false F evs d s k.
Proof.
  intros Hdist Hal Hc Hfuel Hd Hdn Hs Hsn. pose proof BYTES_LONG_cases as HW.
  assert (Hq : 0 <= count / W) by (apply Z.div_pos; lia).
  assert (Hr : 0 <= count mod W < W) by (apply Z.mod_pos_bound; lia).
  assert (Hdm : count = W * (count / W) + count mod W)
    by (apply Z.div_mod; lia).
  assert (Hqc : count / W <= count) by (apply Z.div_le_upper_bound; nia).
  set (n := Z.to_nat (count / W)).
  assert (En : count = W * Z.of_nat n + count mod W) by (unfold n; lia).
  exists (W * Z.of_nat n),
    (fun m => shift_mem XLEN m distance d (s - distance)
                        (le_load m (s - distance) Wn) n),
    (Ld (s - distance) W :: shift_events XLEN d (s - distance) n).
  split; [| split].
  2: { intros st. rewrite En at 1. rewrite shift_merge_run by (unfold n; lia).
       replace (count - W * Z.of_nat n) with (count mod W) by lia.
       reflexivity. }
  - unfold n. nia.
  - apply shift_phase; try assumption; lia.
Qed.

Lemma align_dest_phase (D S N : Z) (b : bool) (fuel : nat) (d s count : Z) :
  W <= count < 2 ^ (8 * W) -> (Z.to_nat count <= fuel)%nat ->
  D <= d -> d + count <= D + N -> S <= s -> s + count <= S + N ->
  exists k F evs,
    0 <= k < W /\ (d + k) mod W = 0 /\
    runs (align_dest XLEN fuel d s count) (d + k, s + k, count - k) F evs /\
    phase XLEN D S N b F evs d s k.
Proof.
  intros Hc Hfuel Hd Hdn Hs Hsn. pose proof BYTES_LONG_cases as HW.
  assert (Hp : 0 <= (- d) mod W < W) by (apply Z.mod_pos_bound; lia).
  set (k := Z.to_nat ((- d) mod W)).
  assert (Ek : (- d) mod W = Z.of_nat k) by (unfold k; lia).
  exists (Z.of_nat k), (fun m => reference_copy m d s k), (byte_events d s k).
  split; [| split; [| split]].
  3: { intros st. apply align_dest_run; [assumption | unfold k; lia | lia]. }
  - lia.
  - rewrite <- Ek. destruct HW as [E | E]; rewrite E;
      Z.div_mod_to_equations; lia.
  - apply byte_phase; lia.
Qed.

Lemma copy_remainder_phase (D S N : Z) (b : bool) (fuel : nat)
      (d s count : Z) :
  0 <= count < 2 ^ (8 * W) -> (Z.to_nat count <= fuel)%nat ->
  D <= d -> d + count <= D + N -> S <= s -> s + count <= S + N ->
  exists F evs,
    runs (copy_remainder XLEN fuel d s count) tt F evs /\
    phase XLEN D S N b F evs d s count.
Proof.
  intros Hc Hfuel Hd Hdn Hs Hsn.
  eexists. eexists. split; [now apply copy_remainder_runs |].
  pose proof (byte_phase D S N b (Z.to_nat count) d s) as H.
  rewrite Z2Nat.id in H by lia. apply H; lia.
Qed.

Lemma bulk_copy_phase (flag : bool) (fuel : nat) (dest src count : Z) :
  2 * W <= count < 2 ^ (8 * W) -> (Z.to_nat count <= fuel)%nat ->
  exists k F evs,
    0 <= k <= count /\
    runs (bulk_copy XLEN flag fuel dest src count)
         (dest + k, src + k, count - k) F evs /\
    phase XLEN dest src count (flag || ((src - dest) mod W =? 0)) F evs
          dest src k.
Proof.
  intros Hc Hfuel. pose proof BYTES_LONG_cases as HW.
  set (b := flag || ((src - dest) mod W =? 0)).
  unfold bulk_copy. destruct flag; cbn [negb].
  - destruct (aligned_copy_phase dest src count b fuel dest src count)
      as (k & F & evs & Hk & Hrun & Hph); try lia.
    exists k, F, evs. split; [assumption | split; [| assumption]].
    intros st. unfold bind at 1. unfold ret at 1. cbn [Z.eqb negb].
    apply Hrun.
  - destruct (align_dest_phase dest src count b fuel dest src count)
      as (p & F1 & e1 & Hp & Hal & Hrun1 & Hph1); try lia.
    assert (Hdist : 0 <= (src + p) mod W < W) by (apply Z.mod_pos_bound; lia).
    destruct (Z.eqb_spec ((src + p) mod W) 0) as [Hz | Hnz].
    + destruct (aligned_copy_phase dest src count b fuel (dest + p) (src + p)
                                   (count - p))
        as (k & F2 & e2 & Hk & Hrun2 & Hph2); try lia.
      exists (p + k), (fun m => F2 (F1 m)), (e1 ++ e2).
      split; [lia | split].
      * intros st. unfold bind at 1. unfold bind at 1. rewrite Hrun1.
        unfold ret at 1. rewrite land_WORD_MASK, Hz. cbn [Z.eqb negb].
        rewrite Hrun2. cbn [mem trace]. rewrite app_assoc.
        do 3 f_equal; [f_equal |]; lia.
      * apply phase_seq; try assumption; lia.
    + destruct (shift_merge_phase dest src count fuel ((src + p) mod W)
                                  (dest + p) (src + p) (count - p))
        as (k & F2 & e2 & Hk & Hrun2 & Hph2); try lia.
      { destruct HW as [E | E]; rewrite E in *;
          Z.div_mod_to_equations; lia. }
      assert (Hb : b = false).
      { unfold b. cbn [orb]. apply Z.eqb_neq.
        destruct HW as [E | E]; rewrite E in *;
          Z.div_mod_to_equations; lia. }
      rewrite Hb in *.
      exists (p + k), (fun m => F2 (F1 m)), (e1 ++ e2).
      split; [lia | split].
      * intros st. unfold bind at 1. unfold bind at 1. rewrite Hrun1.
        unfold ret at 1. rewrite land_WORD_MASK.
        replace ((src + p) mod W =? 0) with false
          by (symmetry; now apply Z.eqb_neq).
        cbn [negb]. rewrite Hrun2. cbn [mem trace]. rewrite app_assoc.
        do 3 f_equal; [f_equal |]; lia.
      * apply phase_seq; try assumption; lia.
Qed.

Lemma __memcpy_run (flag : bool) (fuel : nat) (dest src count : Z) :
  0 <= count < 2 ^ (8 * W) -> (Z.to_nat count <= fuel)%nat ->
  exists F evs,
    runs (__memcpy XLEN flag fuel dest src count) dest F evs /\
    phase XLEN dest src count (word_exact XLEN flag dest src count) F evs
          dest src count.
Proof.
  intros Hc Hfuel. unfold word_exact, __memcpy, MIN_THRESHOLD.
  destruct (Z.ltb_spec count (W * 2)) as [Hlt | Hge].
  - destruct (copy_remainder_phase dest src count true fuel dest src count)
      as (F & evs & Hrun & Hph); try lia.
    exists F, evs. split; [| assumption].
    intros st. unfold bind at 1. unfold ret at 1. unfold bind.
    now rewrite Hrun.
  - destruct (bulk_copy_phase flag fuel dest src count)
      as (k & F1 & e1 & Hk & Hrun1 & Hph1); try lia.
    destruct (copy_remainder_phase dest src count
                (flag || ((src - dest) mod W =? 0))
                fuel (dest + k) (src + k) (count - k))
      as (F2 & e2 & Hrun2 & Hph2); try lia.
    exists (fun m => F2 (F1 m)), (e1 ++ e2). split.
    + intros st. unfold bind at 1. rewrite Hrun1. unfold bind.
      rewrite Hrun2. cbn [mem trace]. now rewrite app_assoc.
    + cbn [orb].
      assert (Hph : phase XLEN dest src count
                          (flag || ((src - dest) mod W =? 0))
                          (fun m => F2 (F1 m)) (e1 ++ e2)
                          dest src (k + (count - k)))
        by (apply phase_seq; try assumption; lia).
      now replace (k + (count - k)) with count in Hph by lia.
Qed.

Lemma copied_unique (m m1 m2 : memory) (d s n : Z) :
  unchanged_outside m m1 d n -> copied m m1 d s n ->
  unchanged_outside m m2 d n -> copied m m2 d s n ->
  forall a, m1 a = m2 a.
Proof.
  intros Hf1 Hc1 Hf2 Hc2 a.
  destruct (Z_lt_le_dec a d) as [Hlt | Hge];
    [rewrite Hf1, Hf2 by lia; reflexivity |].
  destruct (Z_lt_le_dec a (d + n)) as [Hin | Hout];
    [| rewrite Hf1, Hf2 by lia; reflexivity].
  replace a with (d + (a - d)) by lia.
  rewrite Hc1, Hc2 by lia. reflexivity.
Qed.

Lemma shift_loop_step (fuel : nat) (distance d s count last : Z) (st : state) :
  W <= count < 2 ^ (8 * W) ->
  shift_loop XLEN (S fuel) distance d s count last st =
  shift_loop XLEN fuel distance (d + W) (s + W) (count - W)
             (le_load (mem st) (s + W) Wn)
             (mkState (le_store (mem st) d Wn
                         (merge XLEN last (le_load (mem st) (s + W) Wn)
                                distance))
                      (trace st ++ [Ld (s + W) W; St d W])).
Proof.
  intros Hc. pose proof BYTES_LONG_cases as HW. cbn [shift_loop].
  replace (W <=? count) with true by (symmetry; apply Z.leb_le; lia).
  unfold bind, load_ulong, store_ulong, log. cbn [mem trace].
  rewrite wrap_small by lia. rewrite <- app_assoc. cbn [app].
  replace (idx XLEN d 0) with d by (unfold idx; lia).
  replace (idx XLEN d 1) with (d + W) by (unfold idx; lia).
  replace (idx XLEN s 1) with (s + W) by (unfold idx; lia).
  reflexivity.
Qed.

Lemma merged_word_bytes (m : memory) (distance s i : Z) :
  0 < distance < W -> 0 <= i < W ->
  byte_at (merge XLEN (le_load m s Wn) (le_load m (s + W) Wn) distance) i =
  m (s + distance + i).
Proof.
  intros Hd Hi.
  rewrite merge_byte
    by (assumption || (intros p Hp; now apply le_load_word_high)).
  destruct (Z.ltb_spec i (W - distance)) as [Hlo | Hhi];
    rewrite byte_at_le_load by (rewrite BYTES_LONG_nat; lia); f_equal; lia.
Qed.

End Proofs.

(** * The properties of the copy routine *)

Section Properties.

Variable XLEN : xlen.
Variable CONFIG_HAVE_EFFICIENT_UNALIGNED_ACCESS : bool.

Local Abbreviation W := (BYTES_LONG XLEN).
Local Abbreviation Wn := (Z.to_nat (BYTES_LONG XLEN)).
Local Abbreviation memcpy :=
  (__memcpy XLEN CONFIG_HAVE_EFFICIENT_UNALIGNED_ACCESS).

(** C1. For non-overlapping regions and every [count] of type [size_t],
    the call returns (given fuel for [count] loop iterations), its result
    is the destination address [dest], and afterwards each of the [count]
    destination bytes equals the byte the source held at the same offset
    before the call. *)
Theorem memcpy_correct (fuel : nat) (dest src count : Z) (st : state) :
  0 <= count < 2 ^ (8 * W) -> (Z.to_nat count <= fuel)%nat ->
  disjoint dest src count ->
  exists st',
    memcpy fuel dest src count st = Some (dest, st') /\
    forall i, 0 <= i < count -> mem st' (dest + i) = mem st (src + i).
Proof.
  intros Hc Hfuel Hdis.
  destruct (__memcpy_run XLEN CONFIG_HAVE_EFFICIENT_UNALIGNED_ACCESS
                         fuel dest src count Hc Hfuel)
    as (F & evs & Hrun & _ & _ & _ & _ & Hcopied & _).
  eexists. split; [apply Hrun |]. cbn [mem]. now apply Hcopied.
Qed.

(** C2, amended. Every load of the call either lies inside
    [[src, src + count)] or reads one whole aligned word that holds at
    least one byte of that region: nothing is read below [src] rounded
    down to a word boundary, nor from [src + count] rounded up to one
    onwards.  Off the shift-merge branch (count below the threshold,
    efficient unaligned access, or source and destination at the same
    offset inside a word) every load lies inside [[src, src + count)]. *)
Theorem memcpy_loads_within_words (fuel : nat) (dest src count : Z)
        (st : state) :
  0 <= count < 2 ^ (8 * W) -> (Z.to_nat count <= fuel)%nat ->
  exists st' evs,
    memcpy fuel dest src count st = Some (dest, st') /\
    trace st' = trace st ++ evs /\
    Forall (load_within_words XLEN src count) evs /\
    (word_exact XLEN CONFIG_HAVE_EFFICIENT_UNALIGNED_ACCESS dest src count
     = true ->
     Forall (load_inside src count) evs).
Proof.
  intros Hc Hfuel.
  destruct (__memcpy_run XLEN CONFIG_HAVE_EFFICIENT_UNALIGNED_ACCESS
                         fuel dest src count Hc Hfuel)
    as (F & evs & Hrun & _ & Hld & Hin & _ & _ & _).
  eexists. exists evs. split; [apply Hrun |]. now repeat split.
Qed.

(** C4. Whatever the regions, every store of the call lies inside
    [[dest, dest + count)] and every byte outside that range has the same
    value after the call as before it. *)
Theorem memcpy_frame (fuel : nat) (dest src count : Z) (st : state) :
  0 <= count < 2 ^ (8 * W) -> (Z.to_nat count <= fuel)%nat ->
  exists st' evs,
    memcpy fuel dest src count st = Some (dest, st') /\
    trace st' = trace st ++ evs /\
    Forall (store_inside dest count) evs /\
    forall a, ~ (dest <= a < dest + count) -> mem st' a = mem st a.
Proof.
  intros Hc Hfuel.
  destruct (__memcpy_run XLEN CONFIG_HAVE_EFFICIENT_UNALIGNED_ACCESS
                         fuel dest src count Hc Hfuel)
    as (F & evs & Hrun & Hst & _ & _ & Hframe & _ & _).
  eexists. exists evs. split; [apply Hrun |].
  split; [reflexivity | split; [assumption |]]. apply Hframe.
Qed.

(** C8. A call with [count = 0] returns [dest] with the state untouched:
    the memory is the same and no access, load or store, is recorded. *)
Theorem memcpy_zero (fuel : nat) (dest src : Z) (st : state) :
  memcpy fuel dest src 0 st = Some (dest, st).
Proof.
  unfold __memcpy, MIN_THRESHOLD.
  replace (0 <? W * 2) with true
    by (destruct (BYTES_LONG_cases XLEN) as [-> | ->]; reflexivity).
  destruct fuel; reflexivity.
Qed.

(** C9. Two calls with the same addresses and count, on memories that
    hold the same bytes in the source region and may differ anywhere
    else, leave the same bytes in the destination region; this needs no
    assumption on how the two regions lie. *)
Theorem memcpy_deterministic (fuel : nat) (dest src count : Z)
        (st1 st2 : state) :
  0 <= count < 2 ^ (8 * W) -> (Z.to_nat count <= fuel)%nat ->
  (forall i, 0 <= i < count -> mem st1 (src + i) = mem st2 (src + i)) ->
  exists st1' st2',
    memcpy fuel dest src count st1 = Some (dest, st1') /\
    memcpy fuel dest src count st2 = Some (dest, st2') /\
    forall i, 0 <= i < count -> mem st1' (dest + i) = mem st2' (dest + i).
Proof.
  intros Hc Hfuel Hsrc.
  destruct (__memcpy_run XLEN CONFIG_HAVE_EFFICIENT_UNALIGNED_ACCESS
                         fuel dest src count Hc Hfuel)
    as (F & evs & Hrun & _ & _ & _ & _ & _ & Hagree).
  eexists. eexists. split; [apply Hrun | split; [apply Hrun |]].
  cbn [mem]. intros i Hi.
  apply (Hagree (mem st1) (mem st2)); [| lia].
  intros a Ha. replace a with (src + (a - src)) by lia. apply Hsrc. lia.
Qed.

(** C3. In one iteration of the shift-merge loop that enters with the
    aligned source word [last] at [s], the word stored at [d] is
    [last >> (distance * 8) | next << ((W - distance) * 8)] for [next]
    the following source word; its [W] little-endian bytes are the [W]
    source bytes that start [distance] bytes into [last].  On RV64
    ([W = 8]), copying 100 bytes holding [0 .. 99] from an address with
    [distance = 3] to a word-aligned destination goes through the
    shift-merge loop and leaves [0 .. 99] in the destination. *)
Theorem shift_merge_reconstructs (fuel : nat) (distance d s count i : Z)
        (st : state) :
  0 < distance < W -> 0 <= i < W -> W <= count < 2 ^ (8 * W) ->
  let last := le_load (mem st) s Wn in
  let next := le_load (mem st) (s + W) Wn in
  let st1 := mkState (le_store (mem st) d Wn (merge XLEN last next distance))
                     (trace st ++ [Ld (s + W) W; St d W]) in
  shift_loop XLEN (S fuel) distance d s count last st =
    shift_loop XLEN fuel distance (d + W) (s + W) (count - W) next st1 /\
  byte_at (merge XLEN last next distance) i = mem st (s + distance + i) /\
  mem st1 (d + i) = mem st (s + distance + i) /\
  (Z.land 4096 (WORD_MASK RV64) = 0 /\ Z.land 8195 (WORD_MASK RV64) = 3 /\
   exists st',
     __memcpy RV64 false 100 4096 8195 100 (init (pattern 8195 100)) =
       Some (4096, st') /\
     firstn 3 (trace st') = [Ld 8192 8; Ld 8200 8; St 4096 8] /\
     dump (mem st') 4096 100 = map Z.of_nat (seq 0 100)).
Proof.
  intros Hd Hi Hc last next st1. split; [| split; [| split]].
  - now apply shift_loop_step.
  - now apply merged_word_bytes.
  - unfold st1. cbn [mem].
    rewrite le_store_inside by (rewrite BYTES_LONG_nat; lia).
    now apply merged_word_bytes.
  - split; [reflexivity | split; [reflexivity |]].
    eexists. split; [vm_compute; reflexivity |].
    split; vm_compute; reflexivity.
Qed.

(** C5. Called with a byte count that is a multiple of eight words,
    [__memcpy_aligned] returns after [count / (8 * W)] iterations, each
    of which loads eight words and then stores them, [count] bytes loaded
    and [count] bytes stored in all; it writes nothing outside the
    [count] destination bytes, which end up equal to the source bytes
    when the regions do not overlap.  The helper has no test of its own
    for the precondition: pointers of any alignment are accepted, and
    with a count that is not a multiple of eight words it never
    returns. *)
Theorem memcpy_aligned_blocks (fuel : nat) (dest src count : Z) (st : state) :
  0 <= count < 2 ^ (8 * W) -> count mod (8 * W) = 0 ->
  (Z.to_nat (count / (8 * W)) <= fuel)%nat ->
  (exists st' evs,
     __memcpy_aligned XLEN fuel dest src count st = Some (tt, st') /\
     trace st' = trace st ++ evs /\
     evs = aligned_events XLEN dest src (Z.to_nat (count / (8 * W))) /\
     bytes_loaded evs = count /\
     bytes_stored evs = count /\
     unchanged_outside (mem st) (mem st') dest count /\
     (disjoint dest src count -> copied (mem st) (mem st') dest src count)) /\
  (forall fuel' count',
     0 <= count' < 2 ^ (8 * W) -> count' mod (8 * W) <> 0 ->
     __memcpy_aligned XLEN fuel' dest src count' st = None).
Proof.
  intros Hc Hm Hfuel. pose proof (BYTES_LONG_cases XLEN) as HW.
  split; [| intros fuel' count' Hc' Hm'; now apply __memcpy_aligned_diverges].
  assert (Hq : 0 <= count / (8 * W)) by (apply Z.div_pos; lia).
  assert (Ec : count = 8 * W * Z.of_nat (Z.to_nat (count / (8 * W)))).
  { rewrite Z2Nat.id by assumption.
    rewrite (Z.div_mod count (8 * W)) at 1 by lia. lia. }
  set (n := Z.to_nat (count / (8 * W))) in *.
  destruct (aligned_events_bytes XLEN n dest src) as [Hl Hs].
  eexists. exists (aligned_events XLEN dest src n).
  split; [rewrite Ec; apply __memcpy_aligned_run; lia |].
  cbn [mem trace].
  split; [reflexivity | split; [reflexivity |]].
  split; [lia | split; [lia | split]].
  - intros a Ha. apply aligned_mem_outside. lia.
  - rewrite Ec. apply aligned_mem_copied.
Qed.

(** C7. In the [else] branch, [count & ~(8 * W - 1)] is the largest
    multiple of eight words that is at most [count]; [__memcpy_aligned]
    is run on exactly that many bytes, both pointers advance by it, and
    the count handed to the byte-wise tail is [count mod (8 * W)]. *)
Theorem aligned_copy_largest_multiple (fuel : nat) (d s count : Z)
        (st : state) :
  0 <= count < 2 ^ (8 * W) -> (Z.to_nat (count / (8 * W)) <= fuel)%nat ->
  let aligned_count := Z.land count (wrap XLEN (Z.lnot (W * 8 - 1))) in
  aligned_count mod (8 * W) = 0 /\
  aligned_count <= count /\
  (forall k, k mod (8 * W) = 0 -> k <= count -> k <= aligned_count) /\
  Z.land count (W * 8 - 1) = count mod (8 * W) /\
  exists st',
    __memcpy_aligned XLEN fuel d s aligned_count st = Some (tt, st') /\
    aligned_copy XLEN fuel d s count st =
      Some ((d + aligned_count, s + aligned_count, count mod (8 * W)), st') /\
    unchanged_outside (mem st) (mem st') d aligned_count /\
    (disjoint d s aligned_count ->
     copied (mem st) (mem st') d s aligned_count).
Proof.
  intros Hc Hfuel aligned_count. pose proof (BYTES_LONG_cases XLEN) as HW.
  assert (Ea : aligned_count = 8 * W * (count / (8 * W)))
    by now apply land_lnot_block_mask.
  assert (Hq : 0 <= count / (8 * W)) by (apply Z.div_pos; lia).
  assert (Hle : 8 * W * (count / (8 * W)) <= count)
    by (apply Z.mul_div_le; lia).
  split; [| split; [| split; [| split]]].
  - rewrite Ea, Z.mul_comm. apply Z.mod_mul. lia.
  - lia.
  - intros k Hk Hkc. rewrite Ea.
    destruct HW as [E | E]; rewrite E in *; Z.div_mod_to_equations; lia.
  - apply land_block_mask.
  - assert (En : aligned_count =
                 8 * W * Z.of_nat (Z.to_nat (count / (8 * W))))
      by (rewrite Z2Nat.id by assumption; exact Ea).
    eexists. split; [rewrite En; apply __memcpy_aligned_run; lia |].
    cbn [mem trace]. split; [| split].
    + rewrite (aligned_copy_runs XLEN fuel d s count Hc Hfuel st).
      now rewrite <- Ea.
    + intros a Ha. apply aligned_mem_outside. lia.
    + rewrite En. apply aligned_mem_copied.
Qed.

(** C6. Below the threshold [2 * W] the call is exactly the reference
    byte copy: same final memory, and a trace made of byte loads and byte
    stores only, one pair per byte.  This covers [count = 2 * W - 1]; at
    [count = 2 * W] the call goes through the bulk code instead and, for
    non-overlapping regions, still leaves the memory the reference byte
    copy leaves. *)
Theorem memcpy_below_threshold (fuel : nat) (dest src count : Z)
        (st : state) :
  0 <= count < MIN_THRESHOLD XLEN ->
  (Z.to_nat (MIN_THRESHOLD XLEN) <= fuel)%nat ->
  (memcpy fuel dest src count st =
     Some (dest, mkState (reference_copy (mem st) dest src (Z.to_nat count))
                         (trace st ++ byte_events dest src (Z.to_nat count))) /\
   Forall byte_sized (byte_events dest src (Z.to_nat count))) /\
  memcpy fuel dest src (MIN_THRESHOLD XLEN - 1) st =
    Some (dest,
          mkState (reference_copy (mem st) dest src
                                  (Z.to_nat (MIN_THRESHOLD XLEN - 1)))
                  (trace st ++
                   byte_events dest src (Z.to_nat (MIN_THRESHOLD XLEN - 1)))) /\
  memcpy fuel dest src (MIN_THRESHOLD XLEN) st =
    ('(d, s, c) <- bulk_copy XLEN CONFIG_HAVE_EFFICIENT_UNALIGNED_ACCESS
                             fuel dest src (MIN_THRESHOLD XLEN) ;;
     copy_remainder XLEN fuel d s c ;;;
     ret dest) st /\
  (disjoint dest src (MIN_THRESHOLD XLEN) ->
   exists st',
     memcpy fuel dest src (MIN_THRESHOLD XLEN) st = Some (dest, st') /\
     forall a,
       mem st' a =
       reference_copy (mem st) dest src (Z.to_nat (MIN_THRESHOLD XLEN)) a).
Proof.
  intros Hc Hfuel. pose proof (BYTES_LONG_cases XLEN) as HW.
  pose proof (size_max_large XLEN) as Hbig.
  assert (Hbyte : forall c, 0 <= c < MIN_THRESHOLD XLEN ->
            memcpy fuel dest src c st =
            Some (dest, mkState (reference_copy (mem st) dest src (Z.to_nat c))
                                (trace st ++ byte_events dest src (Z.to_nat c)))).
  { intros c Hcc. unfold __memcpy.
    replace (c <? MIN_THRESHOLD XLEN) with true
      by (symmetry; apply Z.ltb_lt; lia).
    unfold MIN_THRESHOLD in *.
    unfold bind at 1. unfold ret at 1. unfold bind.
    rewrite (copy_remainder_runs XLEN fuel dest src c) by lia.
    reflexivity. }
  split; [split; [now apply Hbyte | apply byte_events_sized] |].
  split; [apply Hbyte; unfold MIN_THRESHOLD; lia |].
  split.
  - unfold __memcpy. now rewrite Z.ltb_irrefl.
  - intros Hdis. unfold MIN_THRESHOLD in *.
    destruct (__memcpy_run XLEN CONFIG_HAVE_EFFICIENT_UNALIGNED_ACCESS
                           fuel dest src (W * 2))
      as (F & evs & Hrun & _ & _ & _ & Hframe & Hcopied & _); try lia.
    eexists. split; [apply Hrun |]. cbn [mem].
    apply (copied_unique (mem st) _ _ dest src (W * 2));
      [apply Hframe | now apply Hcopied | |].
    + intros a Ha. apply reference_copy_outside. lia.
    + replace (W * 2) with (Z.of_nat (Z.to_nat (W * 2))) at 2 by lia.
      apply reference_copy_copied. now rewrite Z2Nat.id by lia.
Qed.

(** C10. With [count >= 2 * W] and no efficient unaligned access, the
    prefix loop makes [p <= W - 1] iterations, one byte each, and stops
    with the destination word-aligned; the count it leaves is [count - p]
    without wrap-around and is at least [W + 1].  When the source is then
    not word-aligned the shift-merge branch is entered with that count,
    and its loop makes at least one iteration. *)
Theorem prefix_leaves_a_word (fuel : nat) (d s count : Z) (st : state) :
  MIN_THRESHOLD XLEN <= count < 2 ^ (8 * W) ->
  (Z.to_nat count <= fuel)%nat ->
  exists p st1,
    0 <= p <= W - 1 /\
    align_dest XLEN fuel d s count st =
      Some ((d + p, s + p, count - p), st1) /\
    Z.land (d + p) (WORD_MASK XLEN) = 0 /\
    trace st1 = trace st ++ byte_events d s (Z.to_nat p) /\
    W + 1 <= count - p /\
    (Z.land (s + p) (WORD_MASK XLEN) <> 0 ->
     bulk_copy XLEN false fuel d s count st =
     shift_merge XLEN fuel (Z.land (s + p) (WORD_MASK XLEN))
                 (d + p) (s + p) (count - p) st1) /\
    forall distance,
    exists n st2,
      (1 <= n)%nat /\
      shift_merge XLEN fuel distance (d + p) (s + p) (count - p) st1 =
        Some ((d + p + W * Z.of_nat n, s + p + W * Z.of_nat n,
               (count - p) mod W), st2) /\
      trace st2 = trace st1 ++ Ld (s + p - distance) W ::
                  shift_events XLEN (d + p) (s + p - distance) n.
Proof.
  intros Hc Hfuel. pose proof (BYTES_LONG_cases XLEN) as HW.
  unfold MIN_THRESHOLD in Hc.
  assert (Hp : 0 <= (- d) mod W < W) by (apply Z.mod_pos_bound; lia).
  set (k := Z.to_nat ((- d) mod W)).
  assert (Ek : (- d) mod W = Z.of_nat k) by (unfold k; lia).
  assert (Hrun : align_dest XLEN fuel d s count st =
                 Some ((d + Z.of_nat k, s + Z.of_nat k, count - Z.of_nat k),
                       mkState (reference_copy (mem st) d s k)
                               (trace st ++ byte_events d s k)))
    by (apply align_dest_run; [assumption | unfold k; lia | lia]).
  exists (Z.of_nat k). eexists.
  split; [lia |]. split; [exact Hrun |].
  cbn [trace]. rewrite Nat2Z.id.
  split; [| split; [reflexivity | split; [lia | split]]].
  - rewrite land_WORD_MASK, <- Ek.
    destruct HW as [E | E]; rewrite E; Z.div_mod_to_equations; lia.
  - intros Hnz. unfold bulk_copy. cbn [negb].
    unfold bind at 1. unfold bind at 1. rewrite Hrun. unfold ret at 1.
    replace (Z.land (s + Z.of_nat k) (WORD_MASK XLEN) =? 0) with false
      by (symmetry; now apply Z.eqb_neq).
    reflexivity.
  - intros distance. set (c := count - Z.of_nat k).
    assert (Hq : 1 <= c / W) by (apply Z.div_le_lower_bound; lia).
    assert (Hr : 0 <= c mod W < W) by (apply Z.mod_pos_bound; lia).
    assert (Hdm : c = W * (c / W) + c mod W) by (apply Z.div_mod; lia).
    assert (Hqc : c / W <= c) by (apply Z.div_le_upper_bound; nia).
    exists (Z.to_nat (c / W)). eexists.
    split; [lia |].
    split.
    + rewrite Hdm at 1. rewrite <- (Z2Nat.id (c / W)) at 1 by lia.
      apply shift_merge_run; [unfold c in *; lia | assumption |].
      rewrite Z2Nat.id by lia. unfold c in *. lia.
    + reflexivity.
Qed.

End Properties.

(** * Concrete runs *)

(** C2. Loads are not confined to the source region: on RV64 without
    efficient unaligned access, copying 20 bytes from [8195] to [4096]
    loads the aligned word at [8192], three bytes below the source, and
    the aligned word at [8208], whose last byte [8215] is the first byte
    past the source. *)
Lemma memcpy_reads_outside_source :
  exists st',
    __memcpy RV64 false 20 4096 8195 20 (init (pattern 8195 20)) =
      Some (4096, st') /\
    disjoint 4096 8195 20 /\
    In (Ld 8192 8) (trace st') /\
    In (Ld 8208 8) (trace st') /\
    ~ Forall (load_inside 8195 20) (trace st').
Proof.
  eexists. split; [vm_compute; reflexivity |]. cbn [trace].
  split; [left; lia |].
  split; [cbn [In]; auto |].
  split; [cbn [In]; auto 10 |].
  rewrite Forall_forall. intros H.
  specialize (H (Ld 8192 8) (or_introl eq_refl)).
  cbn [load_inside] in H. lia.
Qed.

Lemma memcpy_correct_witness :
  exists st',
    __memcpy RV64 false 20 4096 8195 20 (init (pattern 8195 20)) =
      Some (4096, st') /\
    forall i, 0 <= i < 20 -> mem st' (4096 + i) = pattern 8195 20 (8195 + i).
Proof.
  apply (memcpy_correct RV64 false 20 4096 8195 20 (init (pattern 8195 20))).
  - split; [lia | reflexivity].
  - lia.
  - left. lia.
Defined.

Lemma memcpy_loads_within_words_witness :
  exists st' evs,
    __memcpy RV64 false 20 4096 8195 20 (init (pattern 8195 20)) =
      Some (4096, st') /\
    trace st' = [] ++ evs /\
    Forall (load_within_words RV64 8195 20) evs /\
    (word_exact RV64 false 4096 8195 20 = true ->
     Forall (load_inside 8195 20) evs).
Proof.
  apply (memcpy_loads_within_words RV64 false 20 4096 8195 20
                                   (init (pattern 8195 20))).
  - split; [lia | reflexivity].
  - lia.
Defined.

Lemma shift_merge_reconstructs_witness :
  byte_at (merge RV64 (le_load (pattern 8195 100) 8192 8)
                 (le_load (pattern 8195 100) 8200 8) 3) 2 =
  pattern 8195 100 (8192 + 3 + 2).
Proof.
  apply (shift_merge_reconstructs RV64 0 3 4096 8192 100 2
                                  (init (pattern 8195 100))).
  - cbn. lia.
  - cbn. lia.
  - split; [cbn; lia | reflexivity].
Defined.

Lemma memcpy_frame_witness :
  exists st' evs,
    __memcpy RV64 false 20 4096 8195 20 (init (pattern 8195 20)) =
      Some (4096, st') /\
    trace st' = [] ++ evs /\
    Forall (store_inside 4096 20) evs /\
    forall a, ~ (4096 <= a < 4096 + 20) -> mem st' a = pattern 8195 20 a.
Proof.
  apply (memcpy_frame RV64 false 20 4096 8195 20 (init (pattern 8195 20))).
  - split; [lia | reflexivity].
  - lia.
Defined.

Lemma memcpy_aligned_blocks_witness :
  exists st' evs,
    __memcpy_aligned RV64 2 4096 8192 128 (init (pattern 8192 128)) =
      Some (tt, st') /\
    trace st' = [] ++ evs /\
    evs = aligned_events RV64 4096 8192 (Z.to_nat (128 / (8 * 8))) /\
    bytes_loaded evs = 128 /\
    bytes_stored evs = 128 /\
    unchanged_outside (pattern 8192 128) (mem st') 4096 128 /\
    (disjoint 4096 8192 128 ->
     copied (pattern 8192 128) (mem st') 4096 8192 128).
Proof.
  apply (memcpy_aligned_blocks RV64 2 4096 8192 128 (init (pattern 8192 128))).
  - split; [lia | reflexivity].
  - reflexivity.
  - cbn. lia.
Defined.

Lemma memcpy_below_threshold_witness :
  __memcpy RV64 false 16 4096 8195 15 (init (pattern 8195 15)) =
    Some (4096, mkState (reference_copy (pattern 8195 15) 4096 8195
                                        (Z.to_nat 15))
                        ([] ++ byte_events 4096 8195 (Z.to_nat 15))) /\
  Forall byte_sized (byte_events 4096 8195 (Z.to_nat 15)).
Proof.
  apply (memcpy_below_threshold RV64 false 16 4096 8195 15
                                (init (pattern 8195 15))).
  - cbn. lia.
  - cbn. lia.
Defined.

Lemma aligned_copy_largest_multiple_witness :
  Z.land 150 (wrap RV64 (Z.lnot (8 * 8 - 1))) mod (8 * 8) = 0 /\
  Z.land 150 (wrap RV64 (Z.lnot (8 * 8 - 1))) <= 150.
Proof.
  pose proof (aligned_copy_largest_multiple
                RV64 2 4096 8192 150 (init (pattern 8192 150))) as H.
  cbv zeta in H. split; apply H.
  - split; [lia | reflexivity].
  - cbn. lia.
  - split; [lia | reflexivity].
  - cbn. lia.
Defined.

Lemma memcpy_deterministic_witness :
  exists st1' st2',
    __memcpy RV64 false 20 4096 8195 20 (init (pattern 8195 20)) =
      Some (4096, st1') /\
    __memcpy RV64 false 20 4096 8195 20
             (init (upd (pattern 8195 20) 4100 Byte.x07)) =
      Some (4096, st2') /\
    forall i, 0 <= i < 20 -> mem st1' (4096 + i) = mem st2' (4096 + i).
Proof.
  apply (memcpy_deterministic RV64 false 20 4096 8195 20).
  - split; [lia | reflexivity].
  - lia.
  - intros i Hi. cbn [init mem]. symmetry. apply upd_other. lia.
Defined.

Lemma prefix_leaves_a_word_witness :
  exists p st1,
    0 <= p <= 8 - 1 /\
    align_dest RV64 16 4093 8195 16 (init (pattern 8195 16)) =
      Some ((4093 + p, 8195 + p, 16 - p), st1) /\
    Z.land (4093 + p) (WORD_MASK RV64) = 0 /\
    trace st1 = [] ++ byte_events 4093 8195 (Z.to_nat p) /\
    8 + 1 <= 16 - p /\
    (Z.land (8195 + p) (WORD_MASK RV64) <> 0 ->
     bulk_copy RV64 false 16 4093 8195 16 (init (pattern 8195 16)) =
     shift_merge RV64 16 (Z.land (8195 + p) (WORD_MASK RV64))
                 (4093 + p) (8195 + p) (16 - p) st1) /\
    forall distance,
    exists n st2,
      (1 <= n)%nat /\
      shift_merge RV64 16 distance (4093 + p) (8195 + p) (16 - p) st1 =
        Some ((4093 + p + 8 * Z.of_nat n, 8195 + p + 8 * Z.of_nat n,
               (16 - p) mod 8), st2) /\
      trace st2 = trace st1 ++ Ld (8195 + p - distance) 8 ::
                  shift_events RV64 (4093 + p) (8195 + p - distance) n.
Proof.
  apply (prefix_leaves_a_word RV64 16 4093 8195 16 (init (pattern 8195 16))).
  - split; [cbn; lia | reflexivity].
  - lia.
Defined.

(** * The routine carries out its plan *)

Section PlanProofs.

Variable XLEN : xlen.

Local Abbreviation W := (BYTES_LONG XLEN).
Local Abbreviation Wn := (Z.to_nat (BYTES_LONG XLEN)).

Lemma runs_eq {A : Type} (c : M A) (a a' : A) (F F' : memory -> memory)
      (evs evs' : list access) :
  a = a' -> (forall m, F m = F' m) -> evs = evs' ->
  runs c a F evs -> runs c a' F' evs'.
Proof.
  intros -> HF -> Hrun st. rewrite Hrun. now rewrite HF.
Qed.

Lemma bulk_len_nonneg (b : bulk_plan) : 0 <= bulk_len XLEN b.
Proof.
  pose proof (BYTES_LONG_cases XLEN) as HW.
  destruct b; cbn [bulk_len]; destruct HW as [E | E]; rewrite E; lia.
Qed.

Lemma bulk_copy_plan (flag : bool) (fuel : nat) (dest src count : Z) :
  2 * W <= count < 2 ^ (8 * W) -> (Z.to_nat count <= fuel)%nat ->
  let pl := memcpy_plan XLEN flag dest src count in
  let p := Z.of_nat (prefix pl) in
  let k := bulk_len XLEN (bulk pl) in
  p + k + Z.of_nat (tail pl) = count /\
  runs (bulk_copy XLEN flag fuel dest src count)
       (dest + p + k, src + p + k, Z.of_nat (tail pl))
       (fun m => bulk_mem XLEN (bulk pl) (dest + p) (src + p)
                          (reference_copy m dest src (prefix pl)))
       (byte_events dest src (prefix pl) ++
        bulk_events XLEN (bulk pl) (dest + p) (src + p)).
Proof.
  intros Hc Hfuel. pose proof (BYTES_LONG_cases XLEN) as HW.
  unfold memcpy_plan, MIN_THRESHOLD.
  replace (count <? W * 2) with false by (symmetry; apply Z.ltb_ge; lia).
  unfold bulk_copy. destruct flag; cbn [negb].
  - (* efficient unaligned access: no prefix, blocks *)
    cbn [Z.eqb prefix bulk tail bulk_len bulk_mem bulk_events].
    assert (Hq : 0 <= count / (8 * W)) by (apply Z.div_pos; lia).
    assert (Hr : 0 <= count mod (8 * W) < 8 * W)
      by (apply Z.mod_pos_bound; lia).
    assert (Hdm : count = 8 * W * (count / (8 * W)) + count mod (8 * W))
      by (apply Z.div_mod; lia).
    rewrite Z.sub_0_r. rewrite !Z2Nat.id by lia.
    change (Z.of_nat (Z.to_nat 0)) with 0. rewrite !Z.add_0_r.
    split; [lia |].
    intros st. unfold bind at 1. unfold ret at 1. cbn [Z.eqb negb].
    rewrite (aligned_copy_runs XLEN fuel dest src count); [reflexivity | lia |].
    assert (count / (8 * W) <= count) by (apply Z.div_le_upper_bound; nia).
    lia.
  - (* prefix, then blocks or shift-merge *)
    assert (Hp : 0 <= (- dest) mod W < W) by (apply Z.mod_pos_bound; lia).
    set (p := (- dest) mod W) in *.
    assert (Hdist : 0 <= (src + p) mod W < W)
      by (apply Z.mod_pos_bound; lia).
    set (c := count - p).
    assert (Hrun1 : forall st,
               align_dest XLEN fuel dest src count st =
               Some ((dest + p, src + p, c),
                     mkState (reference_copy (mem st) dest src (Z.to_nat p))
                             (trace st ++ byte_events dest src (Z.to_nat p)))).
    { intros st.
      rewrite (align_dest_run XLEN (Z.to_nat p) fuel dest src count st);
        [| unfold p; lia | lia | lia].
      rewrite Z2Nat.id by lia. reflexivity. }
    destruct (Z.eqb_spec ((src + p) mod W) 0) as [Hz | Hnz];
      cbn [prefix bulk tail bulk_len bulk_mem bulk_events].
    + assert (Hq : 0 <= c / (8 * W)) by (apply Z.div_pos; unfold c; lia).
      assert (Hr : 0 <= c mod (8 * W) < 8 * W)
        by (apply Z.mod_pos_bound; lia).
      assert (Hdm : c = 8 * W * (c / (8 * W)) + c mod (8 * W))
        by (apply Z.div_mod; lia).
      assert (Hqc : c / (8 * W) <= c)
        by (apply Z.div_le_upper_bound; unfold c; nia).
      rewrite !Z2Nat.id by lia.
      split; [unfold c in *; lia |].
      intros st. unfold bind at 1. unfold bind at 1. rewrite Hrun1.
      unfold ret at 1. rewrite land_WORD_MASK, Hz. cbn [Z.eqb negb].
      rewrite (aligned_copy_runs XLEN fuel (dest + p) (src + p) c);
        [| unfold c; lia | unfold c in *; lia].
      cbn [mem trace]. now rewrite app_assoc.
    + assert (Hq : 0 <= c / W) by (apply Z.div_pos; unfold c; lia).
      assert (Hr : 0 <= c mod W < W) by (apply Z.mod_pos_bound; lia).
      assert (Hdm : c = W * (c / W) + c mod W) by (apply Z.div_mod; lia).
      assert (Hqc : c / W <= c)
        by (apply Z.div_le_upper_bound; unfold c; nia).
      rewrite !Z2Nat.id by lia.
      split; [unfold c in *; lia |].
      intros st. unfold bind at 1. unfold bind at 1. rewrite Hrun1.
      unfold ret at 1. rewrite land_WORD_MASK.
      replace ((src + p) mod W =? 0) with false
        by (symmetry; now apply Z.eqb_neq).
      cbn [negb].
      rewrite Hdm at 1. rewrite <- (Z2Nat.id (c / W)) at 1 by lia.
      rewrite shift_merge_run;
        [| unfold c in *; lia | assumption
         | rewrite Z2Nat.id by lia; unfold c in *; lia].
      cbn [mem trace]. rewrite <- app_assoc.
      rewrite !Z2Nat.id by lia. reflexivity.
Qed.

Lemma __memcpy_plan (flag : bool) (fuel : nat) (dest src count : Z) :
  0 <= count < 2 ^ (8 * W) -> (Z.to_nat count <= fuel)%nat ->
  let pl := memcpy_plan XLEN flag dest src count in
  Z.of_nat (prefix pl) + bulk_len XLEN (bulk pl) + Z.of_nat (tail pl) = count /\
  runs (__memcpy XLEN flag fuel dest src count) dest
       (plan_mem XLEN pl dest src) (plan_events XLEN pl dest src).
Proof.
  intros Hc Hfuel. pose proof (BYTES_LONG_cases XLEN) as HW.
  destruct (Z_lt_le_dec count (2 * W)) as [Hlt | Hge].
  - unfold memcpy_plan, MIN_THRESHOLD.
    replace (count <? W * 2) with true by (symmetry; apply Z.ltb_lt; lia).
    cbn zeta. unfold plan_mem, plan_events.
    cbn [prefix bulk tail bulk_len bulk_mem bulk_events reference_copy
         byte_events aligned_mem aligned_events Z.of_nat app].
    rewrite Z.mul_0_r, !Z.add_0_r. split; [lia |].
    intros st. unfold __memcpy, MIN_THRESHOLD.
    replace (count <? W * 2) with true by (symmetry; apply Z.ltb_lt; lia).
    unfold bind at 1. unfold ret at 1. unfold bind.
    rewrite (copy_remainder_runs XLEN fuel dest src count) by lia.
    reflexivity.
  - destruct (bulk_copy_plan flag fuel dest src count) as [Hlen Hrun];
      [lia | assumption |].
    cbn zeta in *. split; [assumption |].
    set (pl := memcpy_plan XLEN flag dest src count) in *.
    pose proof (bulk_len_nonneg (bulk pl)) as Hk.
    intros st. unfold __memcpy, MIN_THRESHOLD.
    replace (count <? W * 2) with false by (symmetry; apply Z.ltb_ge; lia).
    unfold bind at 1. rewrite Hrun. unfold bind.
    rewrite (copy_remainder_runs XLEN fuel) by lia.
    unfold ret. cbn [mem trace]. unfold plan_mem, plan_events.
    rewrite Nat2Z.id. now rewrite <- !app_assoc.
Qed.

(** ** Facts about the plan *)

Lemma memcpy_plan_facts (flag : bool) (dest src count : Z) :
  0 <= count ->
  let pl := memcpy_plan XLEN flag dest src count in
  let p := Z.of_nat (prefix pl) in
  p <= W - 1 /\
  match bulk pl with
  | ByBlocks n =>
      Z.of_nat (tail pl) <= 8 * W - 1 /\
      (flag = false -> (0 < n)%nat ->
       (dest + p) mod W = 0 /\ (src + p) mod W = 0)
  | ByShift distance n =>
      flag = false /\ 0 < distance < W /\ (1 <= n)%nat /\
      Z.of_nat (tail pl) <= W - 1 /\
      (dest + p) mod W = 0 /\ (src + p - distance) mod W = 0
  end.
Proof.
  intros Hc. pose proof (BYTES_LONG_cases XLEN) as HW.
  unfold memcpy_plan, MIN_THRESHOLD.
  destruct (Z.ltb_spec count (W * 2)) as [Hlt | Hge];
    cbn [prefix bulk tail Z.of_nat].
  - split; [lia | split; [lia | intros _ Hn; lia]].
  - assert (Hp : 0 <= (- dest) mod W < W) by (apply Z.mod_pos_bound; lia).
    destruct flag.
    + cbn [Z.eqb prefix bulk tail]. change (Z.of_nat (Z.to_nat 0)) with 0.
      split; [lia | split; [| discriminate]].
      rewrite Z2Nat.id by (apply Z.mod_pos_bound; lia).
      pose proof (Z.mod_pos_bound (count - 0) (8 * W)). lia.
    + set (p := (- dest) mod W) in *.
      assert (Hal : (dest + p) mod W = 0)
        by (unfold p; destruct HW as [E | E]; rewrite E;
            Z.div_mod_to_equations; lia).
      assert (Hdist : 0 <= (src + p) mod W < W)
        by (apply Z.mod_pos_bound; lia).
      destruct (Z.eqb_spec ((src + p) mod W) 0) as [Hz | Hnz];
        cbn [prefix bulk tail]; rewrite !Z2Nat.id by lia.
      * split; [lia | split; [| now intros _ _]].
        rewrite Z2Nat.id by (apply Z.mod_pos_bound; lia).
        pose proof (Z.mod_pos_bound (count - p) (8 * W)). lia.
      * split; [lia |]. split; [reflexivity |]. split; [lia |].
        assert (1 <= (count - p) / W)
          by (apply Z.div_le_lower_bound; lia).
        split; [lia |].
        rewrite Z2Nat.id by (apply Z.mod_pos_bound; lia).
        pose proof (Z.mod_pos_bound (count - p) W).
        split; [lia | split; [assumption |]].
        destruct HW as [E | E]; rewrite E in *;
          Z.div_mod_to_equations; lia.
Qed.

Lemma word_exact_blocks (flag : bool) (dest src count : Z) :
  word_exact XLEN flag dest src count = true ->
  exists n, bulk (memcpy_plan XLEN flag dest src count) = ByBlocks n.
Proof.
  intros Hex. pose proof (BYTES_LONG_cases XLEN) as HW.
  unfold word_exact in Hex. unfold memcpy_plan.
  destruct (count <? MIN_THRESHOLD XLEN); cbn [bulk]; [eauto |].
  destruct flag; cbn [orb Z.eqb bulk] in *; [eauto |].
  apply Z.eqb_eq in Hex.
  replace ((src + (- dest) mod W) mod W =? 0) with true; [cbn [bulk]; eauto |].
  symmetry. apply Z.eqb_eq.
  destruct HW as [E | E]; rewrite E in *; Z.div_mod_to_equations; lia.
Qed.

Lemma word_exact_bulk (flag : bool) (dest src count : Z) :
  word_exact XLEN flag dest src count =
  match bulk (memcpy_plan XLEN flag dest src count) with
  | ByBlocks _ => true
  | ByShift _ _ => false
  end.
Proof.
  pose proof (BYTES_LONG_cases XLEN) as HW.
  unfold word_exact, memcpy_plan.
  destruct (count <? MIN_THRESHOLD XLEN); cbn [bulk orb]; [reflexivity |].
  destruct flag; cbn [orb Z.eqb bulk]; [reflexivity |].
  destruct (Z.eqb_spec ((src + (- dest) mod W) mod W) 0) as [Hz | Hnz];
    cbn [bulk]; [apply Z.eqb_eq | apply Z.eqb_neq];
    destruct HW as [E | E]; rewrite E in *; Z.div_mod_to_equations; lia.
Qed.

(** ** Stores and loads in address order *)

Lemma stores_from_app (e1 e2 : list access) :
  forall a, stores_from a (e1 ++ e2) =
            match stores_from a e1 with
            | Some b => stores_from b e2
            | None => None
            end.
Proof.
  induction e1 as [| [b sz | b sz] e1 IH]; intros a; cbn [app stores_from];
    [reflexivity | apply IH |].
  destruct ((b =? a) && (0 <? sz)); [apply IH | reflexivity].
Qed.

Lemma loads_from_app (e1 e2 : list access) :
  forall a, loads_from a (e1 ++ e2) =
            match loads_from a e1 with
            | Some b => loads_from b e2
            | None => None
            end.
Proof.
  induction e1 as [| [b sz | b sz] e1 IH]; intros a; cbn [app loads_from];
    [reflexivity | | apply IH].
  destruct ((b =? a) && (0 <? sz)); [apply IH | reflexivity].
Qed.

Lemma byte_events_from (n : nat) :
  forall d s,
    stores_from d (byte_events d s n) = Some (d + Z.of_nat n) /\
    loads_from s (byte_events d s n) = Some (s + Z.of_nat n).
Proof.
  induction n as [| k IH]; intros d s; cbn [byte_events stores_from loads_from].
  - now rewrite !Z.add_0_r.
  - rewrite !Z.eqb_refl. cbn [andb Z.ltb Z.compare].
    destruct (IH (d + 1) (s + 1)) as [IHs IHl]. rewrite IHs, IHl.
    split; f_equal; lia.
Qed.

Lemma aligned_events_from (n : nat) :
  forall d s,
    stores_from d (aligned_events XLEN d s n) =
      Some (d + 8 * W * Z.of_nat n) /\
    loads_from s (aligned_events XLEN d s n) =
      Some (s + 8 * W * Z.of_nat n).
Proof.
  pose proof (BYTES_LONG_cases XLEN) as HW.
  assert (Hpos : (0 <? W) = true) by (apply Z.ltb_lt; lia).
  induction n as [| k IH]; intros d s; cbn [aligned_events].
  - cbn [stores_from loads_from]. now rewrite Z.mul_0_r, !Z.add_0_r.
  - rewrite stores_from_app, loads_from_app.
    unfold block_events, unroll. cbn [map app stores_from loads_from].
    unfold idx.
    rewrite !Hpos.
    repeat match goal with
           | |- context [(?a =? ?b) && true] =>
               replace (a =? b) with true by (symmetry; apply Z.eqb_eq; lia);
               cbn [andb]
           end.
    destruct (IH (idx XLEN d 8) (idx XLEN s 8)) as [IHs IHl].
    unfold idx in IHs, IHl. split.
    + replace (d + W + W + W + W + W + W + W + W) with (d + 8 * W) by lia.
      rewrite IHs. f_equal. lia.
    + replace (s + W + W + W + W + W + W + W + W) with (s + 8 * W) by lia.
      rewrite IHl. f_equal. lia.
Qed.

Lemma shift_events_from (n : nat) :
  forall d s,
    stores_from d (shift_events XLEN d s n) = Some (d + W * Z.of_nat n).
Proof.
  pose proof (BYTES_LONG_cases XLEN) as HW.
  assert (Hpos : (0 <? W) = true) by (apply Z.ltb_lt; lia).
  induction n as [| k IH]; intros d s; cbn [shift_events stores_from].
  - now rewrite Z.mul_0_r, Z.add_0_r.
  - replace (idx XLEN d 0) with d by (unfold idx; lia).
    rewrite Z.eqb_refl, Hpos. cbn [andb].
    replace (d + W) with (idx XLEN d 1) by (unfold idx; lia).
    rewrite IH. unfold idx. f_equal. lia.
Qed.

Lemma plan_events_stores (pl : plan) (dest src : Z) :
  stores_from dest (plan_events XLEN pl dest src) =
  Some (dest + (Z.of_nat (prefix pl) + bulk_len XLEN (bulk pl) +
                Z.of_nat (tail pl))).
Proof.
  unfold plan_events. rewrite stores_from_app.
  rewrite (proj1 (byte_events_from _ _ _)). rewrite stores_from_app.
  destruct (bulk pl) as [n | distance n]; cbn [bulk_events bulk_len].
  - rewrite (proj1 (aligned_events_from _ _ _)).
    rewrite (proj1 (byte_events_from _ _ _)). f_equal. lia.
  - cbn [stores_from]. rewrite shift_events_from.
    rewrite (proj1 (byte_events_from _ _ _)). f_equal. lia.
Qed.

Lemma plan_events_loads (pl : plan) (dest src : Z) (n : nat) :
  bulk pl = ByBlocks n ->
  loads_from src (plan_events XLEN pl dest src) =
  Some (src + (Z.of_nat (prefix pl) + bulk_len XLEN (bulk pl) +
               Z.of_nat (tail pl))).
Proof.
  intros Hb. unfold plan_events. rewrite loads_from_app.
  rewrite (proj2 (byte_events_from _ _ _)). rewrite loads_from_app.
  rewrite Hb. cbn [bulk_events bulk_len].
  rewrite (proj2 (aligned_events_from _ _ _)).
  rewrite (proj2 (byte_events_from _ _ _)). f_equal. lia.
Qed.

(** ** Access sizes and alignment *)

Lemma naturally_aligned_size (evs : list access) :
  Forall (naturally_aligned XLEN) evs -> Forall (byte_or_word XLEN) evs.
Proof.
  apply Forall_impl. intros [a sz | a sz]; cbn; tauto.
Qed.

Lemma byte_events_aligned (n : nat) :
  forall d s, Forall (naturally_aligned XLEN) (byte_events d s n).
Proof.
  induction n as [| k IH]; intros d s; cbn [byte_events];
    repeat (apply Forall_cons; [cbn; now left |]); [constructor | apply IH].
Qed.

Lemma idx_aligned (a j : Z) : a mod W = 0 -> idx XLEN a j mod W = 0.
Proof.
  intros Ha. pose proof (BYTES_LONG_cases XLEN) as HW.
  unfold idx. rewrite Z.mod_add by lia. exact Ha.
Qed.

Lemma aligned_events_sizes (n : nat) :
  forall d s, Forall (byte_or_word XLEN) (aligned_events XLEN d s n).
Proof.
  induction n as [| k IH]; intros d s; cbn [aligned_events];
    [constructor |].
  apply Forall_app. split; [| apply IH].
  unfold block_events, unroll. cbn [map app].
  repeat (apply Forall_cons; [cbn [byte_or_word]; now right |]).
  constructor.
Qed.

Lemma aligned_events_aligned (n : nat) :
  forall d s, d mod W = 0 -> s mod W = 0 ->
    Forall (naturally_aligned XLEN) (aligned_events XLEN d s n).
Proof.
  induction n as [| k IH]; intros d s Hd Hs; cbn [aligned_events];
    [constructor |].
  apply Forall_app. split; [| apply IH; now apply idx_aligned].
  unfold block_events, unroll. cbn [map app].
  repeat (apply Forall_cons;
          [cbn [naturally_aligned]; right; split;
           [reflexivity | now apply idx_aligned] |]).
  constructor.
Qed.

Lemma shift_events_aligned (n : nat) :
  forall d s, d mod W = 0 -> s mod W = 0 ->
    Forall (naturally_aligned XLEN) (shift_events XLEN d s n).
Proof.
  induction n as [| k IH]; intros d s Hd Hs; cbn [shift_events];
    [constructor |].
  repeat (apply Forall_cons;
          [cbn [naturally_aligned]; right; split;
           [reflexivity | now apply idx_aligned] |]).
  apply IH; now apply idx_aligned.
Qed.

Lemma plan_events_sizes (flag : bool) (dest src count : Z) :
  0 <= count ->
  let evs := plan_events XLEN (memcpy_plan XLEN flag dest src count) dest src in
  Forall (byte_or_word XLEN) evs /\
  (flag = false -> Forall (naturally_aligned XLEN) evs).
Proof.
  intros Hc evs. unfold evs.
  pose proof (memcpy_plan_facts flag dest src count Hc) as Hf.
  cbn zeta in Hf. unfold plan_events.
  destruct (memcpy_plan XLEN flag dest src count) as [p b r].
  cbn [prefix bulk tail] in *. destruct Hf as [Hp Hb].
  destruct b as [n | distance n]; cbn [bulk_events bulk_len].
  - destruct Hb as [Hr Hal]. split.
    + repeat (apply Forall_app; split);
        try (apply naturally_aligned_size; apply byte_events_aligned).
      apply aligned_events_sizes.
    + intros Hflag. repeat (apply Forall_app; split);
        try apply byte_events_aligned.
      destruct n as [| n]; [constructor |].
      destruct (Hal Hflag ltac:(lia)) as [Hd Hs].
      now apply aligned_events_aligned.
  - destruct Hb as (Hflag & Hdist & Hn & Hr & Hd & Hs).
    assert (Hall : Forall (naturally_aligned XLEN)
                     (byte_events dest src p ++
                      (Ld (src + Z.of_nat p - distance) W ::
                       shift_events XLEN (dest + Z.of_nat p)
                                    (src + Z.of_nat p - distance) n) ++
                      byte_events (dest + Z.of_nat p + W * Z.of_nat n)
                                  (src + Z.of_nat p + W * Z.of_nat n) r)).
    { repeat (apply Forall_app; split); try apply byte_events_aligned.
      apply Forall_cons; [cbn [naturally_aligned]; now right |].
      now apply shift_events_aligned. }
    split; [now apply naturally_aligned_size | now intros _].
Qed.

(** ** How many bytes go through byte-sized and word-sized accesses *)

Lemma bytes_stored_app (e1 e2 : list access) :
  bytes_stored (e1 ++ e2) = bytes_stored e1 + bytes_stored e2.
Proof.
  unfold bytes_stored. induction e1 as [| [a sz | a sz] e1 IH];
    cbn [app fold_right]; lia.
Qed.

Lemma bytes_loaded_app (e1 e2 : list access) :
  bytes_loaded (e1 ++ e2) = bytes_loaded e1 + bytes_loaded e2.
Proof.
  unfold bytes_loaded. induction e1 as [| [a sz | a sz] e1 IH];
    cbn [app fold_right]; lia.
Qed.

Lemma bytes_stored_bytewise_app (e1 e2 : list access) :
  bytes_stored_bytewise (e1 ++ e2) =
  bytes_stored_bytewise e1 + bytes_stored_bytewise e2.
Proof.
  unfold bytes_stored_bytewise. induction e1 as [| [a sz | a sz] e1 IH];
    cbn [app fold_right]; [lia | lia |].
  destruct (sz =? 1); lia.
Qed.

Lemma byte_events_bytes (n : nat) :
  forall d s,
    bytes_stored (byte_events d s n) = Z.of_nat n /\
    bytes_loaded (byte_events d s n) = Z.of_nat n /\
    bytes_stored_bytewise (byte_events d s n) = Z.of_nat n.
Proof.
  induction n as [| k IH]; intros d s; cbn [byte_events];
    [repeat split |].
  destruct (IH (d + 1) (s + 1)) as (IHs & IHl & IHb).
  unfold bytes_stored, bytes_loaded, bytes_stored_bytewise in *.
  cbn [fold_right Z.eqb Pos.eqb]. rewrite IHs, IHl, IHb. lia.
Qed.

Lemma aligned_events_bytewise (n : nat) :
  forall d s, bytes_stored_bytewise (aligned_events XLEN d s n) = 0.
Proof.
  pose proof (BYTES_LONG_cases XLEN) as HW.
  assert (Hne : (W =? 1) = false) by (apply Z.eqb_neq; lia).
  induction n as [| k IH]; intros d s; cbn [aligned_events];
    [reflexivity |].
  rewrite bytes_stored_bytewise_app, IH.
  unfold block_events, unroll, bytes_stored_bytewise.
  cbn [map app fold_right]. now rewrite Hne.
Qed.

Lemma shift_events_bytes (n : nat) :
  forall d s,
    bytes_stored (shift_events XLEN d s n) = W * Z.of_nat n /\
    bytes_loaded (shift_events XLEN d s n) = W * Z.of_nat n /\
    bytes_stored_bytewise (shift_events XLEN d s n) = 0.
Proof.
  pose proof (BYTES_LONG_cases XLEN) as HW.
  assert (Hne : (W =? 1) = false) by (apply Z.eqb_neq; lia).
  induction n as [| k IH]; intros d s; cbn [shift_events].
  - unfold bytes_stored, bytes_loaded, bytes_stored_bytewise.
    cbn [fold_right]. lia.
  - destruct (IH (idx XLEN d 1) (idx XLEN s 1)) as (IHs & IHl & IHb).
    unfold bytes_stored, bytes_loaded, bytes_stored_bytewise in *.
    cbn [fold_right]. rewrite IHs, IHl, IHb, Hne. lia.
Qed.

Lemma plan_events_bytes (flag : bool) (dest src count : Z) :
  0 <= count ->
  let pl := memcpy_plan XLEN flag dest src count in
  let total := Z.of_nat (prefix pl) + bulk_len XLEN (bulk pl) +
               Z.of_nat (tail pl) in
  let evs := plan_events XLEN pl dest src in
  bytes_stored evs = total /\
  bytes_stored_bytewise evs <= 9 * W - 2 /\
  bytes_loaded evs =
    total + (if word_exact XLEN flag dest src count then 0 else W).
Proof.
  intros Hc pl total evs. unfold evs, total, pl.
  pose proof (BYTES_LONG_cases XLEN) as HW.
  pose proof (memcpy_plan_facts flag dest src count Hc) as Hf.
  rewrite word_exact_bulk.
  cbn zeta in Hf. unfold plan_events.
  destruct (memcpy_plan XLEN flag dest src count) as [p b r].
  cbn [prefix bulk tail] in *. destruct Hf as [Hp Hb].
  rewrite !bytes_stored_app, !bytes_loaded_app, !bytes_stored_bytewise_app.
  destruct (byte_events_bytes p dest src) as (Hps & Hpl & Hpb).
  rewrite Hps, Hpl, Hpb.
  destruct b as [n | distance n]; cbn [bulk_events bulk_len] in *.
  - destruct Hb as [Hr _].
    destruct (aligned_events_bytes XLEN n (dest + Z.of_nat p)
                                   (src + Z.of_nat p)) as [Hal Has].
    destruct (byte_events_bytes r (dest + Z.of_nat p + 8 * W * Z.of_nat n)
                                (src + Z.of_nat p + 8 * W * Z.of_nat n))
      as (Hrs & Hrl & Hrb).
    rewrite Hal, Has, aligned_events_bytewise, Hrs, Hrl, Hrb.
    split; [lia | split; lia].
  - destruct Hb as (_ & _ & _ & Hr & _ & _).
    destruct (shift_events_bytes n (dest + Z.of_nat p)
                                 (src + Z.of_nat p - distance))
      as (Hss & Hsl & Hsb).
    destruct (byte_events_bytes r (dest + Z.of_nat p + W * Z.of_nat n)
                                (src + Z.of_nat p + W * Z.of_nat n))
      as (Hrs & Hrl & Hrb).
    unfold bytes_stored, bytes_loaded, bytes_stored_bytewise in *.
    cbn [fold_right]. rewrite Hss, Hsl, Hsb, Hrs, Hrl, Hrb.
    split; [lia | split; lia].
Qed.

(** ** Copying towards lower addresses *)

Lemma fwd_ok_sub (d s N a n : Z) :
  fwd_ok d s N -> 0 <= a -> a + n <= N -> fwd_ok (d + a) (s + a) n.
Proof. unfold fwd_ok. lia. Qed.

Lemma reference_copy_fwd (n : nat) :
  forall m d s, fwd_ok d s (Z.of_nat n) ->
    copied m (reference_copy m d s n) d s (Z.of_nat n).
Proof.
  unfold fwd_ok, copied.
  induction n as [| k IH]; intros m d s Hok i Hi; [lia |].
  cbn [reference_copy]. destruct (Z.eq_dec i 0) as [-> | Hne].
  - rewrite reference_copy_outside by lia.
    now rewrite !Z.add_0_r, upd_same.
  - replace (d + i) with (d + 1 + (i - 1)) by lia.
    rewrite IH by lia. rewrite upd_other by lia. f_equal. lia.
Qed.

Lemma aligned_mem_fwd (n : nat) :
  forall m d s, fwd_ok d s (8 * W * Z.of_nat n) ->
    copied m (aligned_mem XLEN m d s n) d s (8 * W * Z.of_nat n).
Proof.
  pose proof (BYTES_LONG_cases XLEN) as HW. unfold fwd_ok, copied.
  induction n as [| k IH]; intros m d s Hok i Hi; [lia |].
  cbn [aligned_mem].
  destruct (Z_lt_le_dec i (8 * W)) as [Hlt | Hge].
  - rewrite aligned_mem_outside by (unfold idx; lia).
    apply block_mem_copied. lia.
  - replace (d + i) with (idx XLEN d 8 + (i - 8 * W)) by (unfold idx; lia).
    rewrite IH by (unfold idx; lia).
    rewrite block_mem_outside by (unfold idx; lia).
    f_equal. unfold idx. lia.
Qed.

Lemma shift_mem_fwd (distance : Z) (n : nat) :
  0 < distance < W ->
  forall m d s next,
    fwd_ok d (s + distance) (W * Z.of_nat n) ->
    (forall p, 8 * W <= p -> Z.testbit next p = false) ->
    (forall j, distance <= j < W -> (0 < n)%nat -> byte_at next j = m (s + j)) ->
    copied m (shift_mem XLEN m distance d s next n) d (s + distance)
           (W * Z.of_nat n).
Proof.
  intros Hdist. pose proof (BYTES_LONG_cases XLEN) as HW.
  unfold fwd_ok, copied.
  induction n as [| k IH]; intros m d s next Hok Hhigh Hnext i Hi; [lia |].
  cbn [shift_mem].
  set (next' := le_load m (idx XLEN s 1) Wn).
  set (m1 := le_store m (idx XLEN d 0) Wn (merge XLEN next next' distance)).
  assert (Hm1 : forall a, a < d \/ d + W <= a -> m1 a = m a).
  { intros a Ha. unfold m1. apply le_store_outside.
    rewrite BYTES_LONG_nat. unfold idx. lia. }
  destruct (Z_lt_le_dec i W) as [Hlt | Hge].
  - rewrite shift_mem_outside by (unfold idx; lia).
    unfold m1. replace (d + i) with (idx XLEN d 0 + i) by (unfold idx; lia).
    rewrite le_store_inside by (rewrite BYTES_LONG_nat; lia).
    rewrite merge_byte by (assumption || lia).
    destruct (Z.ltb_spec i (W - distance)) as [Hlo | Hhi].
    + rewrite Hnext by lia. f_equal. lia.
    + unfold next'. rewrite byte_at_le_load by (rewrite BYTES_LONG_nat; lia).
      f_equal. unfold idx. lia.
  - replace (d + i) with (idx XLEN d 1 + (i - W)) by (unfold idx; lia).
    rewrite IH.
    + rewrite Hm1 by (unfold idx; destruct HW as [E | E]; rewrite E in *; lia).
      f_equal. unfold idx. lia.
    + unfold idx. lia.
    + intros p Hp. unfold next'. now apply le_load_word_high.
    + intros j Hj Hk. unfold next'.
      rewrite byte_at_le_load by (rewrite BYTES_LONG_nat; lia).
      symmetry. apply Hm1. unfold idx.
      destruct HW as [E | E]; rewrite E in *; lia.
    + lia.
Qed.

Lemma bulk_mem_outside (b : bulk_plan) (d s : Z) (m : memory) :
  unchanged_outside m (bulk_mem XLEN b d s m) d (bulk_len XLEN b).
Proof.
  intros a Ha. destruct b as [n | distance n]; cbn [bulk_mem bulk_len] in *.
  - apply aligned_mem_outside. lia.
  - apply shift_mem_outside. lia.
Qed.

Lemma bulk_mem_fwd (b : bulk_plan) (d s : Z) (m : memory) :
  match b with ByBlocks _ => True | ByShift distance _ => 0 < distance < W end ->
  fwd_ok d s (bulk_len XLEN b) ->
  copied m (bulk_mem XLEN b d s m) d s (bulk_len XLEN b).
Proof.
  intros Hb Hok. destruct b as [n | distance n]; cbn [bulk_mem bulk_len] in *.
  - now apply aligned_mem_fwd.
  - intros i Hi.
    replace (s + i) with (s - distance + distance + i) by lia.
    apply (shift_mem_fwd distance n Hb); try assumption.
    + now replace (s - distance + distance) with s by lia.
    + intros p Hp. now apply le_load_word_high.
    + intros j Hj _. apply byte_at_le_load. rewrite BYTES_LONG_nat. lia.
Qed.

Lemma copied_seq_fwd (m m1 m2 : memory) (d s n1 n2 : Z) :
  0 <= n1 -> 0 <= n2 -> fwd_ok d s (n1 + n2) ->
  unchanged_outside m m1 d n1 -> copied m m1 d s n1 ->
  unchanged_outside m1 m2 (d + n1) n2 -> copied m1 m2 (d + n1) (s + n1) n2 ->
  unchanged_outside m m2 d (n1 + n2) /\ copied m m2 d s (n1 + n2).
Proof.
  unfold fwd_ok. intros Hn1 Hn2 Hok Hf1 Hc1 Hf2 Hc2. split.
  - intros a Ha. rewrite Hf2 by lia. apply Hf1. lia.
  - intros i Hi. destruct (Z_lt_le_dec i n1) as [Hlt | Hge].
    + rewrite Hf2 by lia. apply Hc1; lia.
    + replace (d + i) with (d + n1 + (i - n1)) by lia.
      rewrite Hc2 by lia. rewrite Hf1 by lia. f_equal. lia.
Qed.

Lemma plan_mem_fwd (flag : bool) (dest src count : Z) (m : memory) :
  0 <= count ->
  let pl := memcpy_plan XLEN flag dest src count in
  let total := Z.of_nat (prefix pl) + bulk_len XLEN (bulk pl) +
               Z.of_nat (tail pl) in
  unchanged_outside m (plan_mem XLEN pl dest src m) dest total /\
  (fwd_ok dest src total -> copied m (plan_mem XLEN pl dest src m) dest src total).
Proof.
  intros Hc pl total. unfold total, pl.
  pose proof (memcpy_plan_facts flag dest src count Hc) as Hf.
  cbn zeta in Hf. unfold plan_mem.
  destruct (memcpy_plan XLEN flag dest src count) as [p b r].
  cbn [prefix bulk tail] in *. destruct Hf as [Hp Hb].
  pose proof (bulk_len_nonneg b) as Hk.
  set (k := bulk_len XLEN b) in *.
  set (m1 := reference_copy m dest src p).
  set (m2 := bulk_mem XLEN b (dest + Z.of_nat p) (src + Z.of_nat p) m1).
  set (m3 := reference_copy m2 (dest + Z.of_nat p + k) (src + Z.of_nat p + k) r).
  assert (Hf1 : unchanged_outside m m1 dest (Z.of_nat p))
    by (intros a Ha; apply reference_copy_outside; lia).
  assert (Hf2 : unchanged_outside m1 m2 (dest + Z.of_nat p) k)
    by apply bulk_mem_outside.
  assert (Hf3 : unchanged_outside m2 m3 (dest + Z.of_nat p + k) (Z.of_nat r))
    by (intros a Ha; apply reference_copy_outside; lia).
  split.
  - intros a Ha. rewrite Hf3, Hf2, Hf1 by lia. reflexivity.
  - intros Hok.
    assert (Hc1 : copied m m1 dest src (Z.of_nat p))
      by (apply reference_copy_fwd; unfold fwd_ok in *; lia).
    assert (Hc2 : copied m1 m2 (dest + Z.of_nat p) (src + Z.of_nat p) k).
    { apply bulk_mem_fwd; [destruct b; tauto | unfold fwd_ok in *; lia]. }
    assert (Hc3 : copied m2 m3 (dest + Z.of_nat p + k)
                         (src + Z.of_nat p + k) (Z.of_nat r))
      by (apply reference_copy_fwd; unfold fwd_ok in *; lia).
    assert (Hok12 : fwd_ok dest src (Z.of_nat p + k))
      by (unfold fwd_ok in *; lia).
    destruct (copied_seq_fwd m m1 m2 dest src (Z.of_nat p) k
                             ltac:(lia) Hk Hok12 Hf1 Hc1 Hf2 Hc2)
      as [Hf12 Hc12].
    replace (dest + Z.of_nat p + k) with (dest + (Z.of_nat p + k))
      in Hf3, Hc3 by lia.
    replace (src + Z.of_nat p + k) with (src + (Z.of_nat p + k))
      in Hc3 by lia.
    apply (copied_seq_fwd m m2 m3 dest src (Z.of_nat p + k) (Z.of_nat r)
                          ltac:(lia) ltac:(lia) Hok Hf12 Hc12 Hf3 Hc3).
Qed.

End PlanProofs.

(** * Further properties of the copy routine *)

Section MoreProperties.

Variable XLEN : xlen.
Variable CONFIG_HAVE_EFFICIENT_UNALIGNED_ACCESS : bool.

Local Abbreviation W := (BYTES_LONG XLEN).
Local Abbreviation flag := CONFIG_HAVE_EFFICIENT_UNALIGNED_ACCESS.
Local Abbreviation memcpy :=
  (__memcpy XLEN CONFIG_HAVE_EFFICIENT_UNALIGNED_ACCESS).

(** X1. The copy is also right when the regions overlap with the
    destination at or below the source ([dest <= src]): all loops walk
    upwards and every word is loaded before the bytes it covers can be
    overwritten, so each destination byte still receives the byte the
    source held before the call. *)
Theorem memcpy_towards_lower (fuel : nat) (dest src count : Z) (st : state) :
  0 <= count < 2 ^ (8 * W) -> (Z.to_nat count <= fuel)%nat ->
  fwd_ok dest src count ->
  exists st',
    memcpy fuel dest src count st = Some (dest, st') /\
    forall i, 0 <= i < count -> mem st' (dest + i) = mem st (src + i).
Proof.
  intros Hc Hfuel Hok.
  destruct (__memcpy_plan XLEN flag fuel dest src count Hc Hfuel)
    as [Hlen Hrun]. cbn zeta in Hlen.
  destruct (plan_mem_fwd XLEN flag dest src count (mem st) (proj1 Hc))
    as [_ Hcopied]. cbn zeta in Hcopied. rewrite Hlen in Hcopied.
  eexists. split; [apply Hrun |]. cbn [mem]. now apply Hcopied.
Qed.

(** X2. Copying a region onto itself leaves the whole memory as it was. *)
Theorem memcpy_onto_itself (fuel : nat) (p count : Z) (st : state) :
  0 <= count < 2 ^ (8 * W) -> (Z.to_nat count <= fuel)%nat ->
  exists st',
    memcpy fuel p p count st = Some (p, st') /\
    forall a, mem st' a = mem st a.
Proof.
  intros Hc Hfuel.
  destruct (__memcpy_plan XLEN flag fuel p p count Hc Hfuel)
    as [Hlen Hrun]. cbn zeta in Hlen.
  destruct (plan_mem_fwd XLEN flag p p count (mem st) (proj1 Hc))
    as [Hframe Hcopied]. cbn zeta in Hframe, Hcopied.
  rewrite Hlen in Hframe, Hcopied.
  eexists. split; [apply Hrun |]. cbn [mem]. intros a.
  destruct (Z_lt_le_dec a p) as [Hlt | Hge]; [apply Hframe; lia |].
  destruct (Z_lt_le_dec a (p + count)) as [Hin | Hout]; [| apply Hframe; lia].
  replace a with (p + (a - p)) by lia.
  apply Hcopied; [left |]; lia.
Qed.

(** X3. The stores of a call, in the order they are made, start at
    [dest], each begins where the previous one ended, and the last ends
    at [dest + count]: every destination byte is written exactly once,
    in ascending address order.  Off the shift-merge branch the loads
    walk [[src, src + count)] in the same way. *)
Theorem memcpy_writes_once_ascending (fuel : nat) (dest src count : Z)
        (st : state) :
  0 <= count < 2 ^ (8 * W) -> (Z.to_nat count <= fuel)%nat ->
  exists st' evs,
    memcpy fuel dest src count st = Some (dest, st') /\
    trace st' = trace st ++ evs /\
    stores_from dest evs = Some (dest + count) /\
    (word_exact XLEN flag dest src count = true ->
     loads_from src evs = Some (src + count)).
Proof.
  intros Hc Hfuel.
  destruct (__memcpy_plan XLEN flag fuel dest src count Hc Hfuel)
    as [Hlen Hrun]. cbn zeta in Hlen.
  eexists. eexists. split; [apply Hrun |]. cbn [trace].
  split; [reflexivity | split].
  - rewrite plan_events_stores. now rewrite Hlen.
  - intros Hex. destruct (word_exact_blocks XLEN flag dest src count Hex)
      as [n Hn].
    rewrite (plan_events_loads XLEN _ dest src n Hn). now rewrite Hlen.
Qed.

(** X4. Every access of a call is one byte or one word.  Without
    efficient unaligned access, every word the call loads or stores is
    at a word-aligned address. *)
Theorem memcpy_accesses_aligned (fuel : nat) (dest src count : Z)
        (st : state) :
  0 <= count < 2 ^ (8 * W) -> (Z.to_nat count <= fuel)%nat ->
  exists st' evs,
    memcpy fuel dest src count st = Some (dest, st') /\
    trace st' = trace st ++ evs /\
    Forall (byte_or_word XLEN) evs /\
    (flag = false -> Forall (naturally_aligned XLEN) evs).
Proof.
  intros Hc Hfuel.
  destruct (__memcpy_plan XLEN flag fuel dest src count Hc Hfuel)
    as [_ Hrun].
  eexists. eexists. split; [apply Hrun |]. cbn [trace].
  split; [reflexivity |].
  apply (plan_events_sizes XLEN flag dest src count (proj1 Hc)).
Qed.

(** X5. A call stores [count] bytes in all, at most [9 * W - 2] of them
    by byte-sized stores (a prefix shorter than a word and a tail
    shorter than a block), whatever [count] is.  It loads [count] bytes,
    and [W] more when it takes the shift-merge branch. *)
Theorem memcpy_bytes_moved (fuel : nat) (dest src count : Z) (st : state) :
  0 <= count < 2 ^ (8 * W) -> (Z.to_nat count <= fuel)%nat ->
  exists st' evs,
    memcpy fuel dest src count st = Some (dest, st') /\
    trace st' = trace st ++ evs /\
    bytes_stored evs = count /\
    bytes_stored_bytewise evs <= 9 * W - 2 /\
    bytes_loaded evs =
      count + (if word_exact XLEN flag dest src count then 0 else W).
Proof.
  intros Hc Hfuel.
  destruct (__memcpy_plan XLEN flag fuel dest src count Hc Hfuel)
    as [Hlen Hrun]. cbn zeta in Hlen.
  pose proof (plan_events_bytes XLEN flag dest src count (proj1 Hc)) as Hb.
  cbn zeta in Hb. rewrite Hlen in Hb.
  eexists. eexists. split; [apply Hrun |]. cbn [trace].
  split; [reflexivity | exact Hb].
Qed.

(** X6. A copy may be split: copying the first [n1] bytes and then the
    next [n2] bytes leaves the same memory as one copy of [n1 + n2]
    bytes, for regions that are disjoint or overlap with
    [dest <= src]. *)
Theorem memcpy_split (fuel : nat) (dest src n1 n2 : Z) (st : state) :
  0 <= n1 -> 0 <= n2 -> n1 + n2 < 2 ^ (8 * W) ->
  (Z.to_nat (n1 + n2) <= fuel)%nat ->
  fwd_ok dest src (n1 + n2) ->
  exists st1 st2 st12,
    memcpy fuel dest src n1 st = Some (dest, st1) /\
    memcpy fuel (dest + n1) (src + n1) n2 st1 = Some (dest + n1, st2) /\
    memcpy fuel dest src (n1 + n2) st = Some (dest, st12) /\
    forall a, mem st2 a = mem st12 a.
Proof.
  intros Hn1 Hn2 Hn Hfuel Hok.
  destruct (__memcpy_plan XLEN flag fuel dest src n1) as [Hl1 Hr1];
    [lia | lia |]. cbn zeta in Hl1.
  destruct (__memcpy_plan XLEN flag fuel (dest + n1) (src + n1) n2)
    as [Hl2 Hr2]; [lia | lia |]. cbn zeta in Hl2.
  destruct (__memcpy_plan XLEN flag fuel dest src (n1 + n2)) as [Hl Hr];
    [lia | lia |]. cbn zeta in Hl.
  eexists. eexists. eexists.
  split; [apply Hr1 | split; [apply Hr2 | split; [apply Hr |]]].
  cbn [mem].
  set (m := mem st).
  set (m1 := plan_mem XLEN (memcpy_plan XLEN flag dest src n1) dest src m).
  destruct (plan_mem_fwd XLEN flag dest src n1 m Hn1) as [Hf1 Hc1].
  destruct (plan_mem_fwd XLEN flag (dest + n1) (src + n1) n2 m1 Hn2)
    as [Hf2 Hc2].
  destruct (plan_mem_fwd XLEN flag dest src (n1 + n2) m ltac:(lia))
    as [Hf Hc].
  cbn zeta in *. rewrite Hl1 in Hf1, Hc1. rewrite Hl2 in Hf2, Hc2.
  rewrite Hl in Hf, Hc. fold m1 in Hf1, Hc1.
  assert (Hok1 : fwd_ok dest src n1) by (unfold fwd_ok in *; lia).
  assert (Hok2 : fwd_ok (dest + n1) (src + n1) n2)
    by (unfold fwd_ok in *; lia).
  destruct (copied_seq_fwd _ _ _ dest src n1 n2 Hn1 Hn2 Hok
                           Hf1 (Hc1 Hok1) Hf2 (Hc2 Hok2)) as [Hf12 Hc12].
  apply (copied_unique m _ _ dest src (n1 + n2));
    [exact Hf12 | exact Hc12 | exact Hf | exact (Hc Hok)].
Qed.

(** X7. [__memcpy_aligned], called with a multiple of eight words, is
    right for overlapping regions with [dest <= src] too; and because an
    iteration loads its eight words before it stores any, a single block
    ([count = 8 * W]) is copied right however the regions overlap. *)
Theorem memcpy_aligned_overlap (fuel : nat) (dest src count : Z)
        (st : state) :
  0 <= count < 2 ^ (8 * W) -> count mod (8 * W) = 0 ->
  (Z.to_nat (count / (8 * W)) <= fuel)%nat ->
  fwd_ok dest src count \/ count = 8 * W ->
  exists st',
    __memcpy_aligned XLEN fuel dest src count st = Some (tt, st') /\
    forall i, 0 <= i < count -> mem st' (dest + i) = mem st (src + i).
Proof.
  intros Hc Hm Hfuel Hok. pose proof (BYTES_LONG_cases XLEN) as HW.
  assert (Hq : 0 <= count / (8 * W)) by (apply Z.div_pos; lia).
  assert (Ec : count = 8 * W * Z.of_nat (Z.to_nat (count / (8 * W)))).
  { rewrite Z2Nat.id by assumption.
    rewrite (Z.div_mod count (8 * W)) at 1 by lia. lia. }
  set (n := Z.to_nat (count / (8 * W))) in *.
  eexists. split; [rewrite Ec; apply __memcpy_aligned_run; lia |].
  cbn [mem]. destruct Hok as [Hok | Hone].
  - rewrite Ec in Hok |- *. now apply aligned_mem_fwd.
  - assert (n = 1%nat) by nia. subst n.
    intros i Hi. replace (Z.to_nat (count / (8 * W))) with 1%nat by lia.
    cbn [aligned_mem]. apply block_mem_copied. lia.
Qed.

End MoreProperties.

(** * Properties of the PWM driver *)

(** ** Running the driver *)

Ltac drive :=
  cbv beta iota zeta delta
      [thead_pwm_apply thead_pwm_config thead_pwm_enable thead_pwm_disable
       thead_pwm_set_polarity thead_pwm_probe thead_pwm_remove
       thead_pwm_runtime_suspend thead_pwm_runtime_resume
       thead_pwm_clk_prepare_enable thead_pwm_clk_disable_unprepare
       bindK retK readl writel clk_get_rate clk_prepare_enable
       clk_disable_unprepare pm_runtime_get_sync pm_runtime_put_sync
       pm_runtime_enable pm_runtime_disable pm_runtime_get_noresume
       pm_runtime_put devm_kzalloc platform_set_drvdata
       devm_platform_ioremap_resource devm_clk_get pwmchip_add
       pwmchip_remove dev_err];
  cbn [app fst snd negb andb hwpwm cur enabled polarity period duty_cycle
       polarity_eqb Z.eqb Z.opp].

Ltac branch :=
  match goal with
  | |- context [if ?c then _ else _] =>
      lazymatch c with
      | context [if _ then _ else _] => fail
      | _ => destruct c eqn:?
      end
  end.

Section DriverProofs.

Variable env : environment.

(** ** Calls made by composite computations *)

Lemma always_retK {A : Type} (P : call -> Prop) (a : A) : always P (retK a).
Proof. intros h. constructor. Qed.

Lemma always_bindK {A B : Type} (P : call -> Prop) (c : K A) (k : A -> K B) :
  always P c -> (forall a, always P (k a)) -> always P (bindK c k).
Proof.
  intros Hc Hk h. unfold bindK.
  specialize (Hc h). destruct (c h) as [a e1]. cbn [snd] in Hc.
  specialize (Hk a (h ++ e1)). destruct (k a (h ++ e1)) as [b e2].
  cbn [snd] in *. apply Forall_app. now split.
Qed.

Lemma always_readl (P : call -> Prop) (off : Z) :
  (forall v, P (Readl off v)) -> always P (readl env off).
Proof. intros H h. cbn. constructor; [apply H | constructor]. Qed.

Lemma always_writel (P : call -> Prop) (val off : Z) :
  (forall v, P (Writel v off)) -> always P (writel val off).
Proof. intros H h. cbn. constructor; [apply H | constructor]. Qed.

Lemma always_silent {A : Type} (P : call -> Prop) (c : K A) :
  (forall e, call_offset e = None -> P e) ->
  (forall h, Forall (fun e => call_offset e = None) (snd (c h))) ->
  always P c.
Proof.
  intros HP Hc h. eapply Forall_impl; [| apply Hc]. exact HP.
Qed.

(** ** Register offsets *)

Lemma channel_offsets (n : Z) :
  0 <= n < MAX_PWM_NUM ->
  LIGHT_PWM_CTRL n = n * 0x20 /\
  LIGHT_PWM_PER n = n * 0x20 + 0x08 /\
  LIGHT_PWM_FP n = n * 0x20 + 0x0c.
Proof.
  unfold MAX_PWM_NUM. intros Hn.
  unfold LIGHT_PWM_CTRL, LIGHT_PWM_PER, LIGHT_PWM_FP, LIGHT_PWM_CHN_BASE, u32.
  rewrite (Z.mod_small (n * 32)) by lia.
  rewrite !Z.mod_small by lia. lia.
Qed.

Lemma in_channel_off_channel (n n' : Z) (c : call) :
  0 <= n < MAX_PWM_NUM -> n' <> n -> in_channel n c -> off_channel n' c.
Proof.
  intros Hn Hne. destruct (channel_offsets n Hn) as (Ec & Ep & Ef).
  unfold in_channel, off_channel. destruct (call_offset c) as [off |]; [| auto].
  rewrite Ec, Ep, Ef. unfold MAX_PWM_NUM in Hn. lia.
Qed.

Ltac silent :=
  apply always_silent;
  [ intros e He; unfold in_channel; now rewrite He
  | intros h; cbn; repeat constructor ].

Ltac in_chan :=
  repeat first
    [ apply always_retK
    | apply always_readl; intros v; unfold in_channel; cbn; tauto
    | apply always_writel; intros v; unfold in_channel; cbn; tauto
    | apply always_bindK; [| intros ?]
    | match goal with
      | |- always _ (if ?c then _ else _) => destruct c
      | |- always _ (match ?p with _ => _ end) => destruct p
      end
    | progress cbv zeta
    | silent ].

Lemma thead_pwm_enable_in_channel (pwm : pwm_device) :
  always (in_channel (hwpwm pwm)) (thead_pwm_enable env pwm).
Proof. unfold thead_pwm_enable. in_chan. Qed.

Lemma thead_pwm_disable_in_channel (pwm : pwm_device) :
  always (in_channel (hwpwm pwm)) (thead_pwm_disable env pwm).
Proof. unfold thead_pwm_disable. in_chan. Qed.

Lemma thead_pwm_config_in_channel (pwm : pwm_device) (duty_ns period_ns : Z) :
  always (in_channel (hwpwm pwm)) (thead_pwm_config env pwm duty_ns period_ns).
Proof. unfold thead_pwm_config. in_chan. Qed.

Lemma thead_pwm_set_polarity_in_channel (pwm : pwm_device)
      (pol : pwm_polarity) :
  always (in_channel (hwpwm pwm)) (thead_pwm_set_polarity env pwm pol).
Proof. unfold thead_pwm_set_polarity. in_chan. Qed.

Lemma thead_pwm_apply_in_channel (pwm : pwm_device) (state : pwm_state) :
  always (in_channel (hwpwm pwm)) (thead_pwm_apply env pwm state).
Proof.
  unfold thead_pwm_apply. cbv zeta.
  repeat first
    [ apply always_retK
    | apply thead_pwm_enable_in_channel
    | apply thead_pwm_disable_in_channel
    | apply thead_pwm_config_in_channel
    | apply thead_pwm_set_polarity_in_channel
    | apply always_bindK; [| intros ?]
    | match goal with
      | |- always _ (if ?c then _ else _) => destruct c
      end ].
Qed.

Lemma pm_resumes_ltb :
  pm_resumes env ->
  forall h, (s32 (env_pm_runtime_get_sync env h) <? 0) = false.
Proof. intros H h. apply Z.ltb_ge. apply H. Qed.

Lemma pm_fails_ltb :
  pm_fails env ->
  forall h, (s32 (env_pm_runtime_get_sync env h) <? 0) = true.
Proof. intros H h. apply Z.ltb_lt. apply H. Qed.

Lemma s32_EINVAL : s32 (- EINVAL) = -22.
Proof. reflexivity. Qed.

Lemma thead_pwm_apply_result_refs (pwm : pwm_device) (state : pwm_state)
      (h : list call) :
  pm_resumes env ->
  fst (thead_pwm_apply env pwm state h) =
    (if enabled state && (s32 (duty_cycle state) >? s32 (period state))
     then - EINVAL else 0) /\
  pm_refs (snd (thead_pwm_apply env pwm state h)) =
    (if fst (thead_pwm_apply env pwm state h) =? 0
     then Z.b2z (enabled state) - Z.b2z (enabled (cur pwm)) else 0).
Proof.
  intros Hpm. pose proof (pm_resumes_ltb Hpm) as Hlt.
  destruct pwm as [n [cp cd cpol cen]]. destruct state as [p d pol en].
  destruct pol, cpol, en, cen;
    repeat (progress (drive; rewrite ?Hlt, ?s32_EINVAL));
    try branch;
    repeat (progress (drive; rewrite ?Hlt, ?s32_EINVAL));
    split; reflexivity.
Qed.

(** ** Register values *)









Lemma IS_ERR_negative (p : Z) :
  0 <= p < 2 ^ 64 -> IS_ERR p = true -> s32 p < 0.
Proof.
  unfold IS_ERR, u64, MAX_ERRNO, s32. intros Hp Herr.
  apply Z.leb_le in Herr.
  change ((- 4095) mod 2 ^ 64) with (2 ^ 64 - 4095) in Herr.
  change (2 ^ 64) with (4294967296 * 4294967296) in *.
  change (2 ^ 32) with 4294967296. change (2 ^ 31) with 2147483648.
  Z.div_mod_to_equations. lia.
Qed.

End DriverProofs.

Section DriverProperties.

Variable env : environment.

(** X8. Whatever the requested state, [thead_pwm_apply] on channel
    [n < MAX_PWM_NUM] reads and writes only the control, period and duty
    registers of channel [n]: it never touches a register in the window
    of another channel, nor the repeat and status registers. *)
Theorem thead_pwm_apply_stays_in_channel (pwm : pwm_device)
        (state : pwm_state) (h : list call) :
  0 <= hwpwm pwm < MAX_PWM_NUM ->
  Forall (in_channel (hwpwm pwm)) (snd (thead_pwm_apply env pwm state h)) /\
  (forall n', n' <> hwpwm pwm ->
     Forall (off_channel n') (snd (thead_pwm_apply env pwm state h))) /\
  (forall v off,
     In (Readl off v) (snd (thead_pwm_apply env pwm state h)) \/
     In (Writel v off) (snd (thead_pwm_apply env pwm state h)) ->
     off <> LIGHT_PWM_RPT (hwpwm pwm) /\ off <> LIGHT_PWM_STATUS (hwpwm pwm)).
Proof.
  intros Hn. pose proof (thead_pwm_apply_in_channel env pwm state h) as Hin.
  split; [exact Hin | split].
  - intros n' Hne. eapply Forall_impl; [| exact Hin].
    intros c. now apply in_channel_off_channel.
  - intros v off Hacc. rewrite Forall_forall in Hin.
    destruct (channel_offsets (hwpwm pwm) Hn) as (Ec & Ep & Ef).
    assert (Hoff : off = LIGHT_PWM_CTRL (hwpwm pwm) \/
                   off = LIGHT_PWM_PER (hwpwm pwm) \/
                   off = LIGHT_PWM_FP (hwpwm pwm))
      by (destruct Hacc as [H | H]; apply (Hin _ H)).
    unfold MAX_PWM_NUM in Hn. rewrite Ec, Ep, Ef in Hoff.
    unfold LIGHT_PWM_RPT, LIGHT_PWM_STATUS, LIGHT_PWM_CHN_BASE, u32.
    rewrite (Z.mod_small (hwpwm pwm * 32)) by lia.
    rewrite !Z.mod_small by lia. lia.
Qed.

(** X9. When runtime PM resumes the device, [thead_pwm_apply] fails only
    with [-EINVAL], and exactly when the new state is enabled and its
    duty cycle, truncated to [int], is greater than its period truncated
    to [int]; a request to disable always returns 0. *)
Theorem thead_pwm_apply_result (pwm : pwm_device) (state : pwm_state)
        (h : list call) :
  pm_resumes env ->
  fst (thead_pwm_apply env pwm state h) =
    (if enabled state && (s32 (duty_cycle state) >? s32 (period state))
     then - EINVAL else 0).
Proof. intros Hpm. now apply thead_pwm_apply_result_refs. Qed.

(** X10. When runtime PM resumes the device, a successful
    [thead_pwm_apply] changes the number of runtime-PM references held by
    one for a channel it turns on, by minus one for a channel it turns
    off, and not at all otherwise; a rejected request holds none. *)
Theorem thead_pwm_apply_pm_refs (pwm : pwm_device) (state : pwm_state)
        (h : list call) :
  pm_resumes env ->
  pm_refs (snd (thead_pwm_apply env pwm state h)) =
    (if fst (thead_pwm_apply env pwm state h) =? 0
     then Z.b2z (enabled state) - Z.b2z (enabled (cur pwm)) else 0).
Proof. intros Hpm. now apply thead_pwm_apply_result_refs. Qed.




(** X14. When runtime PM cannot resume the device, a request for an
    enabled state fails with a negative error and writes no register. *)
Theorem thead_pwm_apply_no_write_when_suspended (pwm : pwm_device)
        (state : pwm_state) (h : list call) :
  pm_fails env -> enabled state = true ->
  fst (thead_pwm_apply env pwm state h) < 0 /\
  Forall (fun c => is_write c = false)
         (snd (thead_pwm_apply env pwm state h)).
Proof.
  intros Hpm Hen. pose proof (pm_fails_ltb env Hpm) as Hlt.
  assert (Hne : forall h', (s32 (env_pm_runtime_get_sync env h') =? 0) = false)
    by (intros h'; apply Z.eqb_neq; pose proof (Hpm h'); lia).
  destruct pwm as [n [cp cd cpol cen]]. destruct state as [p d pol en].
  cbn [enabled] in Hen. subst en.
  destruct pol, cpol;
    repeat (progress (drive; rewrite ?Hlt, ?Hne, ?s32_EINVAL));
    try branch;
    repeat (progress (drive; rewrite ?Hlt, ?Hne, ?s32_EINVAL));
    (split; [first [apply Hpm | lia] | repeat constructor]).
Qed.

(** X15. [thead_pwm_probe] returns 0 only after it has enabled the clock,
    enabled runtime PM and registered the chip, once each, and with the
    runtime-PM reference it took given back.  When it fails it returns a
    non-zero error and leaves none of the three behind: the clock is
    disabled again and runtime PM is disabled again on the paths that
    had enabled them.  After a successful probe, [thead_pwm_remove]
    undoes all three. *)
Theorem thead_pwm_probe_cleanup (h : list call) :
  let r := fst (thead_pwm_probe env h) in
  let evs := snd (thead_pwm_probe env h) in
  (r = 0 ->
   clk_enables evs = 1 /\ pm_enables evs = 1 /\ chips_added evs = 1 /\
   pm_refs evs = 0) /\
  (r <> 0 ->
   clk_enables evs = 0 /\ pm_enables evs = 0 /\ chips_added evs = 0) /\
  (r = 0 ->
   forall h',
     let evs' := snd (thead_pwm_remove h') in
     clk_enables (evs ++ evs') = 0 /\ pm_enables (evs ++ evs') = 0 /\
     chips_added (evs ++ evs') = 0).
Proof.
  cbv zeta. drive.
  destruct (env_devm_kzalloc env h); drive;
    [| repeat split; intros; try discriminate; reflexivity].
  match goal with
  | |- context [IS_ERR ?p] =>
      pose proof (IS_ERR_negative p) as Herr; destruct (IS_ERR p)
  end; drive.
  { unfold PTR_ERR.
    repeat split; intros; try reflexivity;
      exfalso; specialize (Herr ltac:(apply Z.mod_pos_bound; lia) eq_refl);
      lia. }
  clear Herr.
  match goal with
  | |- context [IS_ERR ?p] =>
      pose proof (IS_ERR_negative p) as Herr; destruct (IS_ERR p)
  end; drive.
  { unfold PTR_ERR.
    repeat split; intros; try reflexivity;
      exfalso; specialize (Herr ltac:(apply Z.mod_pos_bound; lia) eq_refl);
      lia. }
  clear Herr.
  match goal with
  | |- context [negb (?x =? 0)] => destruct (Z.eqb_spec x 0) as [E1 | E1]
  end; drive.
  2: { repeat split; intros; try contradiction;
         unfold clk_enables, pm_enables, chips_added; cbn [fold_right];
         rewrite ?(proj2 (Z.eqb_neq _ _) E1); reflexivity. }
  match goal with
  | |- context [negb (?x =? 0)] => destruct (Z.eqb_spec x 0) as [E2 | E2]
  end; drive.
  - repeat split; intros; try congruence; drive;
      unfold clk_enables, pm_enables, chips_added, pm_refs;
      cbn [fold_right app]; rewrite ?E2; rewrite ?E1; reflexivity.
  - repeat split; intros; try contradiction;
      unfold clk_enables, pm_enables, chips_added; cbn [fold_right];
      rewrite ?(proj2 (Z.eqb_neq _ _) E2); rewrite ?E1; reflexivity.
Qed.

End DriverProperties.

(** * Concrete runs of the further properties *)

Lemma memcpy_towards_lower_witness :
  exists st',
    __memcpy RV64 false 20 4096 4099 20 (init (pattern 4099 20)) =
      Some (4096, st') /\
    forall i, 0 <= i < 20 -> mem st' (4096 + i) = pattern 4099 20 (4099 + i).
Proof.
  apply (memcpy_towards_lower RV64 false 20 4096 4099 20
                              (init (pattern 4099 20))).
  - split; [lia | reflexivity].
  - lia.
  - left. lia.
Defined.

Lemma memcpy_onto_itself_witness :
  exists st',
    __memcpy RV64 false 20 4099 4099 20 (init (pattern 4099 20)) =
      Some (4099, st') /\
    forall a, mem st' a = pattern 4099 20 a.
Proof.
  apply (memcpy_onto_itself RV64 false 20 4099 20 (init (pattern 4099 20))).
  - split; [lia | reflexivity].
  - lia.
Defined.

Lemma memcpy_writes_once_ascending_witness :
  exists st' evs,
    __memcpy RV64 false 20 4096 8195 20 (init (pattern 8195 20)) =
      Some (4096, st') /\
    trace st' = [] ++ evs /\
    stores_from 4096 evs = Some (4096 + 20) /\
    (word_exact RV64 false 4096 8195 20 = true ->
     loads_from 8195 evs = Some (8195 + 20)).
Proof.
  apply (memcpy_writes_once_ascending RV64 false 20 4096 8195 20
                                      (init (pattern 8195 20))).
  - split; [lia | reflexivity].
  - lia.
Defined.

Lemma memcpy_accesses_aligned_witness :
  exists st' evs,
    __memcpy RV64 false 20 4093 8195 20 (init (pattern 8195 20)) =
      Some (4093, st') /\
    trace st' = [] ++ evs /\
    Forall (byte_or_word RV64) evs /\
    (false = false -> Forall (naturally_aligned RV64) evs).
Proof.
  apply (memcpy_accesses_aligned RV64 false 20 4093 8195 20
                                 (init (pattern 8195 20))).
  - split; [lia | reflexivity].
  - lia.
Defined.

Lemma memcpy_bytes_moved_witness :
  exists st' evs,
    __memcpy RV64 false 200 4093 8195 200 (init (pattern 8195 200)) =
      Some (4093, st') /\
    trace st' = [] ++ evs /\
    bytes_stored evs = 200 /\
    bytes_stored_bytewise evs <= 9 * 8 - 2 /\
    bytes_loaded evs =
      200 + (if word_exact RV64 false 4093 8195 200 then 0 else 8).
Proof.
  apply (memcpy_bytes_moved RV64 false 200 4093 8195 200
                            (init (pattern 8195 200))).
  - split; [lia | reflexivity].
  - lia.
Defined.

Lemma memcpy_split_witness :
  exists st1 st2 st12,
    __memcpy RV64 false 25 4096 8195 10 (init (pattern 8195 25)) =
      Some (4096, st1) /\
    __memcpy RV64 false 25 (4096 + 10) (8195 + 10) 15 st1 =
      Some (4096 + 10, st2) /\
    __memcpy RV64 false 25 4096 8195 (10 + 15) (init (pattern 8195 25)) =
      Some (4096, st12) /\
    forall a, mem st2 a = mem st12 a.
Proof.
  apply (memcpy_split RV64 false 25 4096 8195 10 15 (init (pattern 8195 25))).
  - lia.
  - lia.
  - reflexivity.
  - lia.
  - left. lia.
Defined.

Lemma memcpy_aligned_overlap_witness :
  exists st',
    __memcpy_aligned RV64 2 4096 4104 128 (init (pattern 4104 128)) =
      Some (tt, st') /\
    forall i, 0 <= i < 128 -> mem st' (4096 + i) = pattern 4104 128 (4104 + i).
Proof.
  apply (memcpy_aligned_overlap RV64 2 4096 4104 128
                                (init (pattern 4104 128))).
  - split; [lia | reflexivity].
  - reflexivity.
  - cbn. lia.
  - left. left. lia.
Defined.

Lemma constant_env_resumes (reg rate : Z) :
  pm_resumes (constant_env reg rate 0).
Proof. intros h. vm_compute. discriminate. Qed.

Lemma constant_env_fails (reg rate : Z) :
  pm_fails (constant_env reg rate (-5)).
Proof. intros h. reflexivity. Qed.

Lemma thead_pwm_apply_stays_in_channel_witness :
  Forall (in_channel 2)
         (snd (thead_pwm_apply (constant_env 0x328 24000000 0)
                               channel2_off quarter_duty [])).
Proof.
  apply (thead_pwm_apply_stays_in_channel (constant_env 0x328 24000000 0)
                                          channel2_off quarter_duty []).
  unfold channel2_off, MAX_PWM_NUM. cbn [hwpwm]. lia.
Defined.

Lemma thead_pwm_apply_result_witness :
  fst (thead_pwm_apply (constant_env 0x328 24000000 0)
                       channel2_off quarter_duty []) =
  (if enabled quarter_duty &&
      (s32 (duty_cycle quarter_duty) >? s32 (period quarter_duty))
   then - EINVAL else 0).
Proof.
  apply (thead_pwm_apply_result (constant_env 0x328 24000000 0)
                                channel2_off quarter_duty []).
  apply constant_env_resumes.
Defined.

Lemma thead_pwm_apply_pm_refs_witness :
  pm_refs (snd (thead_pwm_apply (constant_env 0x328 24000000 0)
                                channel2_off quarter_duty [])) =
  (if fst (thead_pwm_apply (constant_env 0x328 24000000 0)
                           channel2_off quarter_duty []) =? 0
   then Z.b2z (enabled quarter_duty) - Z.b2z (enabled (cur channel2_off))
   else 0).
Proof.
  apply (thead_pwm_apply_pm_refs (constant_env 0x328 24000000 0)
                                 channel2_off quarter_duty []).
  apply constant_env_resumes.
Defined.




Lemma thead_pwm_apply_no_write_when_suspended_witness :
  fst (thead_pwm_apply (constant_env 0x328 24000000 (-5))
                       channel2_off quarter_duty []) < 0 /\
  Forall (fun c => is_write c = false)
         (snd (thead_pwm_apply (constant_env 0x328 24000000 (-5))
                               channel2_off quarter_duty [])).
Proof.
  apply (thead_pwm_apply_no_write_when_suspended
           (constant_env 0x328 24000000 (-5)) channel2_off quarter_duty []).
  - apply constant_env_fails.
  - reflexivity.
Defined.
